(** * Metric voting: the representation / inefficiency measurements

    A shallow embedding of [src/metric_voting/measurements.py] and the
    properties its specification states about it.

    Conventions of the model.
    - A 2-d [numpy] array is a record holding its rows and its number of
      columns (an array with no row still has a column count, as
      [cst_array.shape] has).
    - Costs are exact rationals [Q]: the rounding of float64 additions is
      abstracted away, and results are compared with [==] and [<=] on [Q].
      What float64 arithmetic makes visible beyond rounding is kept: a
      division never raises, it yields an infinity or NaN ([xreal]).
      Statements proved in this reading hold in exact arithmetic.
    - Where a statement fails in float64 itself, the input is evaluated in
      the float64 reading of the same functions ([group_inefficiency64]),
      in which sums round and overflow.
    - The proportional size [int(bloc_size / n * k)] is an integer computed
      through two float64 operations; it is modelled bit for bit with the
      IEEE-754 binary64 operations of [SpecFloat].
    - Python exceptions are values of [exn]; a function that can raise
      returns a [result]. *)

From Stdlib Require Import ZArith QArith Qabs Lqa Lia Bool.
From Stdlib Require Import Sorting.Mergesort Sorting.Sorted Orders.
From Stdlib Require Import Floats.SpecFloat.
From stdpp Require Import base list.

Local Open Scope Z_scope.

(** ** Exceptions and results *)

Inductive exn : Type :=
| ValueError      (* size too large, int(nan), shape mismatch *)
| IndexError      (* index or boolean mask out of bounds *)
| OverflowError.  (* int(inf) *)

Inductive result (A : Type) : Type :=
| Ok (a : A)
| Raise (e : exn).
Arguments Ok {A} a.
Arguments Raise {A} e.

#[global] Instance result_bind : MBind result := λ A B k r,
  match r with
  | Ok a => k a
  | Raise e => Raise e
  end.

#[global] Instance result_ret : MRet result := λ A a, Ok a.

(** [mapR f l] runs [f] on the elements of [l] from left to right and stops
    at the first exception, as a Python loop does. *)
Fixpoint mapR {A B} (f : A → result B) (l : list A) : result (list B) :=
  match l with
  | [] => Ok []
  | a :: l' => b ← f a ; bs ← mapR f l' ; Ok (b :: bs)
  end.

Definition is_ok {A} (r : result A) : bool :=
  match r with Ok _ => true | Raise _ => false end.

(** ** Extended reals: the values a float64 expression can take *)

Inductive xreal : Type :=
| Finite (q : Q)
| PosInf
| NegInf
| NaN.

Definition Qsign (q : Q) : comparison := (q ?= 0)%Q.

Definition xinf_of (c : comparison) : xreal :=
  match c with Gt => PosInf | Lt => NegInf | Eq => NaN end.

(** [x / y] on float64 values ([numpy] true division): no exception, a zero
    divisor gives a signed infinity, or NaN for [0 / 0]. *)
Definition xdiv (x y : xreal) : xreal :=
  match x, y with
  | NaN, _ | _, NaN => NaN
  | Finite a, Finite b =>
      if Qeq_bool b 0 then xinf_of (Qsign a) else Finite (a / b)
  | Finite _, (PosInf | NegInf) => Finite 0
  | (PosInf | NegInf), (PosInf | NegInf) => NaN
  | PosInf, Finite b => if Qle_bool 0 b then PosInf else NegInf
  | NegInf, Finite b => if Qle_bool 0 b then NegInf else PosInf
  end.

Definition xadd (x y : xreal) : xreal :=
  match x, y with
  | NaN, _ | _, NaN => NaN
  | Finite a, Finite b => Finite (a + b)
  | PosInf, NegInf | NegInf, PosInf => NaN
  | PosInf, _ | _, PosInf => PosInf
  | NegInf, _ | _, NegInf => NegInf
  end.

Definition xsum (l : list xreal) : xreal := foldr xadd (Finite 0) l.

(** ** Arrays *)

(** [np.sum] of a 1-d array of costs. *)
Definition Qsum (l : list Q) : Q := foldr Qplus 0%Q l.

(** A 2-d array of costs: [rows] has [len] entries, each of length
    [ncols] when the array is well formed. *)
Record NDArray : Type := mkArray {
  ncols : nat;
  rows : list (list Q)
}.

Definition wf_array (a : NDArray) : Prop :=
  Forall (λ r, length r = ncols a) (rows a).

(** [len(a)] *)
Definition len (a : NDArray) : Z := Z.of_nat (length (rows a)).

(** [a.shape] *)
Definition shape (a : NDArray) : Z * Z := (len a, Z.of_nat (ncols a)).

(** [l[:stop]] on a Python sequence: a negative [stop] counts from the
    end, a [stop] beyond the end takes everything. *)
Definition slice_to {A} (l : list A) (stop : Z) : list A :=
  if 0 <=? stop then take (Z.to_nat stop) l
  else take (length l - Z.to_nat (- stop))%nat l.

(** Resolution of one integer index against an axis of length [n]:
    [numpy] accepts [-n <= i < n] and counts negative indices from the end. *)
Definition norm_index (n : nat) (i : Z) : result nat :=
  if (0 <=? i) && (i <? Z.of_nat n) then Ok (Z.to_nat i)
  else if (- Z.of_nat n <=? i) && (i <? 0) then Ok (Z.to_nat (Z.of_nat n + i))
  else Raise IndexError.

(** [a[idx, :]] with an integer index array. *)
Definition take_rows (a : NDArray) (idx : list Z) : result NDArray :=
  rs ← mapR (λ i, j ← norm_index (length (rows a)) i ;
                  match rows a !! j with
                  | Some r => Ok r
                  | None => Raise IndexError
                  end) idx ;
  Ok (mkArray (ncols a) rs).

(** The elements of [l] at the positions where [mask] is true. *)
Fixpoint select {A} (mask : list bool) (l : list A) : list A :=
  match mask, l with
  | b :: mask', x :: l' => if b then x :: select mask' l' else select mask' l'
  | _, _ => []
  end.

Definition count_true (mask : list bool) : nat :=
  length (filter (λ b, b = true) mask).

(** [a[:, mask]] with a boolean mask: the mask must be as long as the
    column axis. *)
Definition select_cols (a : NDArray) (mask : list bool) : result NDArray :=
  if decide (length mask = ncols a)
  then Ok (mkArray (count_true mask) (map (select mask) (rows a)))
  else Raise IndexError.

(** [labels == label], elementwise. *)
Definition labels_eq (voter_labels : list Z) (bloc_label : Z) : list bool :=
  map (λ l, l =? bloc_label) voter_labels.

(** [np.sort] of a 1-d array of costs (ascending). *)
Module QOrder <: TotalLeBool.
Definition t := Q.
Definition leb (x y : Q) : bool := Qle_bool x y.
Lemma leb_total (x y : Q) : leb x y = true ∨ leb y x = true.
Proof.
  unfold leb. rewrite !Qle_bool_iff.
  destruct (Qlt_le_dec x y) as [H|H]; [left; lra | right; lra].
Qed.
End QOrder.

Module QSort := Sort QOrder.

Definition np_sort (l : list Q) : list Q := QSort.sort l.

(** ** measurements.py *)

(** [candidate_costs]: [np.sum(cst_array, axis=1)], one sum per row. *)
Definition candidate_costs (cst_array : NDArray) : list Q :=
  map Qsum (rows cst_array).

(** [proportional_assignment_cost] *)
Definition proportional_assignment_cost (cst_array : NDArray) (size : Z)
  : result Q :=
  if len cst_array <? size then Raise ValueError
  else
    let candidate_csts := candidate_costs cst_array in
    Ok (Qsum (slice_to (np_sort candidate_csts) size)).

(** *** The proportional size, in float64 *)

Definition prec : Z := 53.
Definition emax : Z := 1024.

(** Conversion of an integer to float64 (round to nearest, ties to even). *)
Definition float_of_int (z : Z) : spec_float :=
  binary_normalize prec emax z 0 false.

Definition fdiv : spec_float → spec_float → spec_float := SFdiv prec emax.
Definition fmul : spec_float → spec_float → spec_float := SFmul prec emax.

(** [int(x)] on a float: truncation toward zero; [int(nan)] raises
    [ValueError] and [int(inf)] raises [OverflowError]. *)
Definition int_of_float (x : spec_float) : result Z :=
  match x with
  | S754_zero _ => Ok 0
  | S754_finite s m e =>
      let a := if 0 <=? e then Z.pos m * 2 ^ e
               else Z.quot (Z.pos m) (2 ^ (- e)) in
      Ok (if s then - a else a)
  | S754_infinity _ => Raise OverflowError
  | S754_nan => Raise ValueError
  end.

(** [int(bloc_size / n * k)] *)
Definition proportional_size (bloc_size n k : Z) : result Z :=
  int_of_float (fmul (fdiv (float_of_int bloc_size) (float_of_int n))
                     (float_of_int k)).

(** Lines 158-164 of [group_inefficiency]: the size of the representative
    set, as supplied or computed proportionally. *)
Definition effective_size (cst_array : NDArray) (winner_indices : list Z)
    (voter_labels : list Z) (bloc_label : Z) (size : option Z) : result Z :=
  let '(_, n) := shape cst_array in
  let k := Z.of_nat (length winner_indices) in
  match size with
  | None =>
      let bloc_size :=
        Z.of_nat (count_true (labels_eq voter_labels bloc_label)) in
      proportional_size bloc_size n k
  | Some size => Ok size
  end.

(** [group_inefficiency] *)
Definition group_inefficiency (cst_array : NDArray) (winner_indices : list Z)
    (voter_labels : list Z) (bloc_label : Z) (size : option Z)
  : result xreal :=
  size ← effective_size cst_array winner_indices voter_labels bloc_label size ;
  if negb (size =? 0) then
    bloc_dists ← select_cols cst_array (labels_eq voter_labels bloc_label) ;
    winner_dists ← take_rows bloc_dists winner_indices ;
    cost1 ← proportional_assignment_cost winner_dists size ;
    cost2 ← proportional_assignment_cost bloc_dists size ;
    Ok (xdiv (Finite cost1) (Finite cost2))
  else Ok (Finite 0).

(** All entries of a cost array are non-negative (distances are). *)
Definition nonneg_array (a : NDArray) : Prop :=
  Forall (Forall (λ x, 0 <= x)%Q) (rows a).

(** *** Construction of the cost array *)

(** [cost_array]: the entry [i, j] is [distance_fn(voter j, candidate i)];
    the double loop runs over the candidates, then over the voters, and an
    exception of [distance_fn] leaves the loops. *)
Definition cost_array (distance_fn : list Q → list Q → result Q)
    (voter_positions candidate_positions : NDArray) : result NDArray :=
  dists ← mapR (λ c, mapR (λ v, distance_fn v c) (rows voter_positions))
               (rows candidate_positions) ;
  Ok (mkArray (length (rows voter_positions)) dists).

(** [numpy] broadcasting of two axes of lengths [d1] and [d2]. *)
Definition broadcastable (d1 d2 : nat) : bool :=
  bool_decide (d1 = d2) || bool_decide (d1 = 1%nat) || bool_decide (d2 = 1%nat).

(** [x - y] on two coordinate vectors whose lengths broadcast. *)
Definition sub_broadcast (x y : list Q) : list Q :=
  if decide (length x = length y) then zip_with Qminus x y
  else if decide (length x = 1%nat) then map (λ b, hd 0 x - b)%Q y
  else map (λ a, a - hd 0 y)%Q x.

(** The squared Euclidean distance of two points: the sum over the
    coordinates they share of the squared differences. *)
Fixpoint squared_distance (x y : list Q) : Q :=
  match x, y with
  | a :: x', b :: y' => ((a - b) * (a - b) + squared_distance x' y')%Q
  | _, _ => 0%Q
  end.

Section Euclidean.
(** [np.sqrt] on a non-negative cost; any function will do, the two
    construction modes call the same one. *)
Variable sqrt : Q → Q.

(** [np.sqrt(np.sum(diff**2))] *)
Definition norm2 (diff : list Q) : Q :=
  sqrt (Qsum (map (λ x, x ^ 2)%Q diff)).

(** Modelled from the spec: [euclidean_distance] is imported from
    [utils.py], which is not among the sources. The spec names it the
    default distance function, the Euclidean distance between two points of
    the same space, and has coordinates that disagree in dimension raise a
    dimension-mismatch error. It is written here on its own, coordinate by
    coordinate, with none of the array operations of the fast path. *)
Definition euclidean_distance (x y : list Q) : result Q :=
  if decide (length x = length y)
  then Ok (sqrt (squared_distance x y))
  else Raise ValueError.

(** [euclidean_cost_array]: the difference of the [(1, n, d)] and
    [(m, 1, d')] views broadcasts to [(m, n, _)] or raises; then squares,
    sum over the last axis, square root. *)
Definition euclidean_cost_array (voter_positions candidate_positions : NDArray)
  : result NDArray :=
  if broadcastable (ncols voter_positions) (ncols candidate_positions) then
    let diffs :=
      map (λ c, map (λ v, sub_broadcast v c) (rows voter_positions))
          (rows candidate_positions) in
    Ok (mkArray (length (rows voter_positions)) (map (map norm2) diffs))
  else Raise ValueError.

End Euclidean.

(** A distance function that never raises: the taxicab distance over the
    coordinates the two points share, written with [zip]. *)
Definition taxicab (x y : list Q) : result Q :=
  Ok (Qsum (zip_with (λ a b, Qabs (a - b)) x y)).

(** *** Random blocs *)

(** Column [j] of a 2-d array. *)
Definition column (a : NDArray) (j : nat) : list Q :=
  map (λ r, nth j r 0%Q) (rows a).

(** [np.sum(np.sort(a, axis=0)[:t, :], axis=0)]: for each column, the sum
    of its [t] smallest entries. *)
Definition best_per_voter (a : NDArray) (t : Z) : list Q :=
  map (λ j, Qsum (slice_to (np_sort (column a j)) t)) (seq 0 (ncols a)).

(** Lines 199-212 of [random_group_inefficiency]: the weights as supplied,
    or the normalised greedy estimates. *)
Definition sampling_weights (cost_arr : NDArray) (winner_indices : list Z)
    (t : Z) (weights : option (list xreal)) : result (list xreal) :=
  match weights with
  | Some weights => Ok weights
  | None =>
      winner_dists ← take_rows cost_arr winner_indices ;
      let winner_set_cost_arr := best_per_voter winner_dists t in
      let candidate_set_cost_arr := best_per_voter cost_arr t in
      let greedy_scores :=
        zip_with (λ a b, xdiv (Finite a) (Finite b))
                 winner_set_cost_arr candidate_set_cost_arr in
      Ok (map (λ g, xdiv g (xsum greedy_scores)) greedy_scores)
  end.

(** [labels = np.zeros(n); labels[random_bloc] = 1] *)
Definition mark_bloc (n : nat) (random_bloc : list Z) : result (list Z) :=
  idx ← mapR (norm_index n) random_bloc ;
  Ok (foldr (λ j labels, <[j:=1]> labels) (replicate n 0) idx).

Section Sampler.
(** [random_voter_bloc] is imported from [utils.py], which is not among
    the sources. It is called with [(n, k, t, weights)] and nothing else,
    so whatever randomness it has is read from, and written back to, the
    ambient generator of the process: [rng_state]. *)
Context {rng_state : Type}.
Variable random_voter_bloc :
  Z → Z → Z → list xreal → rng_state → result (list Z) * rng_state.

(** [random_group_inefficiency], as a state transformer on the ambient
    generator. *)
Definition random_group_inefficiency (cost_arr : NDArray)
    (winner_indices : list Z) (t : Z) (weights : option (list xreal))
    (g : rng_state) : result (xreal * list Z) * rng_state :=
  let '(_, n) := shape cost_arr in
  let k := Z.of_nat (length winner_indices) in
  match sampling_weights cost_arr winner_indices t weights with
  | Raise e => (Raise e, g)
  | Ok weights =>
      let '(drawn, g') := random_voter_bloc n k t weights g in
      (random_bloc ← drawn ;
       random_bloc_labels ← mark_bloc (ncols cost_arr) random_bloc ;
       score ← group_inefficiency cost_arr winner_indices
                 random_bloc_labels 1 None ;
       Ok (score, random_bloc),
       g')
  end.

End Sampler.

(** A linear congruential generator stands for the ambient generator:
    its state is one integer. *)
Definition lcg_next (g : Z) : Z := (1103515245 * g + 12345) mod 2 ^ 31.

(** The state read as a number in [[0, 1)]. *)
Definition lcg_uniform (g : Z) : Q := g # 2147483648.

(** The voter at which the running total of the weights passes [u]. *)
Fixpoint pick (u : Q) (pool : list (Z * Q)) : option Z :=
  match pool with
  | [] => None
  | (i, w) :: rest =>
      match rest with
      | [] => Some i
      | _ :: _ => if Qle_bool w u then pick (u - w)%Q rest else Some i
      end
  end.

(** [size] weighted draws without replacement. *)
Fixpoint draw (size : nat) (pool : list (Z * Q)) (g : Z) : list Z * Z :=
  match size with
  | O => ([], g)
  | S size' =>
      let g1 := lcg_next g in
      match pick (lcg_uniform g1 * Qsum (map snd pool))%Q pool with
      | None => ([], g1)
      | Some i =>
          let '(rest, g2) := draw size' (filter (λ p, fst p ≠ i) pool) g1 in
          (i :: rest, g2)
      end
  end.

Definition finite_weight (w : xreal) : result Q :=
  match w with
  | Finite q => if Qle_bool 0 q then Ok q else Raise ValueError
  | _ => Raise ValueError
  end.

(** Modelled from the spec: [random_voter_bloc] is imported from
    [utils.py], which is not among the sources. By the spec it draws,
    without replacement, a bloc of voters from the distribution the weights
    give; the bloc has [int(t / k * n)] voters, the share of the electorate
    entitled to [t] of the [k] winners. Here the draws read the ambient
    generator [lcg_next]; negative or non-finite weights raise
    [ValueError]. *)
Definition lcg_voter_bloc (n k t : Z) (weights : list xreal) (g : Z)
  : result (list Z) * Z :=
  match ws ← mapR finite_weight weights ;
        size ← proportional_size t k n ;
        Ok (ws, size) with
  | Raise e => (Raise e, g)
  | Ok (ws, size) =>
      let voters := map Z.of_nat (seq 0 (Z.to_nat n)) in
      let '(bloc, g') := draw (Z.to_nat size) (zip voters ws) g in
      (Ok bloc, g')
  end.

(** ** Notions used in the statements *)

(** The row of [a] that an in-range index selects. *)
Definition row_at (a : NDArray) (i : Z) : list Q :=
  nth (Z.to_nat i) (rows a) [].

(** A score is usable when it is a number: neither an infinity nor NaN. *)
Definition is_finite (x : xreal) : bool :=
  match x with Finite _ => true | _ => false end.

(** What the float division [cost1 / 0.0] evaluates to. *)
Definition zero_division (cost1 : Q) : xreal :=
  match (cost1 ?= 0)%Q with
  | Eq => NaN
  | Gt => PosInf
  | Lt => NegInf
  end.

(** ** Example data *)

(** The scenario of the spec's testable properties: two voters at [(0,0)]
    and [(10,0)], three candidates at [(0,0)], [(5,0)] and [(10,0)]. *)
Definition scenario_costs : NDArray :=
  mkArray 2 [[0; 10]; [5; 5]; [10; 0]]%Q.

(** Three candidates and four voters. *)
Definition line_costs : NDArray :=
  mkArray 4 [[1; 2; 5; 7]; [4; 3; 2; 4]; [7; 6; 3; 1]]%Q.

(** [line_costs] restricted to its first two voters. *)
Definition line_costs_bloc : NDArray :=
  mkArray 2 [[1; 2]; [4; 3]; [7; 6]]%Q.

(** [m] candidates at cost 1 from each of [n] voters. *)
Definition uniform_costs (m n : nat) : NDArray :=
  mkArray n (replicate m (replicate n 1%Q)).

(** A labelling of [n + 1] voters whose first voter alone is in bloc 1. *)
Definition lone_voter (n : nat) : list Z := 1 :: replicate n 0.

(** ** The remaining aggregates of measurements.py *)

(** [cost]: [np.sum(cst_array)], the sum of all the entries. *)
Definition cost (cst_array : NDArray) : Q :=
  Qsum (concat (rows cst_array)).

(** [voter_costs]: [np.sum(cst_array, axis=0)], one sum per column. *)
Definition voter_costs (cst_array : NDArray) : list Q :=
  map (λ j, Qsum (column cst_array j)) (seq 0 (ncols cst_array)).

(** ** Further notions used in the statements *)

(** The integer indices [numpy] accepts on an axis of length [m]. *)
Definition valid_index (m : nat) (i : Z) : Prop :=
  (- Z.of_nat m ≤ i < Z.of_nat m)%Z.

#[global] Instance valid_index_dec (m : nat) (i : Z) :
  Decision (valid_index m i).
Proof. unfold valid_index. apply _. Defined.

(** The position a valid index resolves to. *)
Definition resolve (m : nat) (i : Z) : nat := Z.to_nat (i mod Z.of_nat m).

(** The row of [a] that a valid index selects. *)
Definition row_sel (a : NDArray) (i : Z) : list Q :=
  nth (resolve (length (rows a)) i) (rows a) [].

(** All entries of a cost array are positive. *)
Definition positive_array (a : NDArray) : Prop :=
  Forall (Forall (λ x, 0 < x)%Q) (rows a).

(** The cost array with every entry multiplied by [c] (a change of unit). *)
Definition scale_costs (c : Q) (a : NDArray) : NDArray :=
  mkArray (ncols a) (map (map (Qmult c)) (rows a)).

(** Equality of scores as numbers. *)
Definition xreal_eqv (x y : xreal) : Prop :=
  match x, y with
  | Finite a, Finite b => (a == b)%Q
  | PosInf, PosInf | NegInf, NegInf | NaN, NaN => True
  | _, _ => False
  end.

(** Same exception, or results equal as numbers. *)
Definition result_eqv {A} (R : A → A → Prop) (r1 r2 : result A) : Prop :=
  match r1, r2 with
  | Ok a, Ok b => R a b
  | Raise e1, Raise e2 => e1 = e2
  | _, _ => False
  end.

(** The labels [mark_bloc] builds from resolved positions. *)
Definition marks (n : nat) (idx : list nat) : list Z :=
  foldr (λ j labels, <[j:=1%Z]> labels) (replicate n 0%Z) idx.

(** ** The float64 reading of the score

    The same functions on float64 entries, with the IEEE-754 operations of
    [SpecFloat]: sums can round and overflow to an infinity, and a quotient
    can be an infinity or NaN. *)

Definition fadd : spec_float → spec_float → spec_float := SFadd prec emax.

(** A 2-d array of float64. *)
Record NDArray64 : Type := mkArray64 {
  ncols64 : nat;
  rows64 : list (list spec_float)
}.

(** The order [np.sort] sorts float64 by: ascending, NaN last. *)
Definition fle (x y : spec_float) : bool :=
  match SFcompare x y with
  | Some Gt => false
  | Some _ => true
  | None => match y with S754_nan => true | _ => false end
  end.

Fixpoint insert64 (x : spec_float) (l : list spec_float) : list spec_float :=
  match l with
  | [] => [x]
  | y :: l' => if fle x y then x :: l else y :: insert64 x l'
  end.

(** [np.sort] of a 1-d float64 array. *)
Definition np_sort64 (l : list spec_float) : list spec_float :=
  foldr insert64 [] l.

(** [a[idx, :]] *)
Definition take_rows64 (a : NDArray64) (idx : list Z) : result NDArray64 :=
  rs ← mapR (λ i, j ← norm_index (length (rows64 a)) i ;
                  match rows64 a !! j with
                  | Some r => Ok r
                  | None => Raise IndexError
                  end) idx ;
  Ok (mkArray64 (ncols64 a) rs).

(** [a[:, mask]] *)
Definition select_cols64 (a : NDArray64) (mask : list bool)
  : result NDArray64 :=
  if decide (length mask = ncols64 a)
  then Ok (mkArray64 (count_true mask) (map (select mask) (rows64 a)))
  else Raise IndexError.

Section Float64.
(** [np.sum] of a 1-d float64 array. [numpy] starts from the first element
    and adds the others in an order that depends on the length and on the
    memory layout of the array (in sequence, or pairwise in blocks); the
    order is left open here by taking the function as a parameter. *)
Variable np_sum64 : list spec_float → spec_float.

(** [candidate_costs] *)
Definition candidate_costs64 (cst_array : NDArray64) : list spec_float :=
  map np_sum64 (rows64 cst_array).

(** [proportional_assignment_cost] *)
Definition proportional_assignment_cost64 (cst_array : NDArray64) (size : Z)
  : result spec_float :=
  if Z.of_nat (length (rows64 cst_array)) <? size then Raise ValueError
  else
    let candidate_csts := candidate_costs64 cst_array in
    Ok (np_sum64 (slice_to (np_sort64 candidate_csts) size)).

(** [group_inefficiency] *)
Definition group_inefficiency64 (cst_array : NDArray64)
    (winner_indices : list Z) (voter_labels : list Z) (bloc_label : Z)
    (size : option Z) : result spec_float :=
  let n := Z.of_nat (ncols64 cst_array) in
  let k := Z.of_nat (length winner_indices) in
  size ← match size with
         | None =>
             let bloc_size :=
               Z.of_nat (count_true (labels_eq voter_labels bloc_label)) in
             proportional_size bloc_size n k
         | Some size => Ok size
         end ;
  if negb (size =? 0) then
    bloc_dists ← select_cols64 cst_array (labels_eq voter_labels bloc_label) ;
    winner_dists ← take_rows64 bloc_dists winner_indices ;
    cost1 ← proportional_assignment_cost64 winner_dists size ;
    cost2 ← proportional_assignment_cost64 bloc_dists size ;
    Ok (fdiv cost1 cost2)
  else Ok (S754_zero false).

End Float64.

(** The sum in sequence from the first element: one of the orders
    [np.sum] uses, and the only one there is for up to two elements. *)
Definition sequential_sum (l : list spec_float) : spec_float :=
  match l with
  | [] => S754_zero false
  | x :: l' => fold_left fadd l' x
  end.

(** [2 ** 1023], a float64 below the largest one. *)
Definition huge : spec_float := float_of_int (2 ^ 1023).

(** One candidate at distance [2 ** 1023] from each of two voters. *)
Definition far_costs : NDArray64 := mkArray64 2 [[huge; huge]].

(** The same far candidate, and a second one at distance 1 from both
    voters. *)
Definition far_and_near_costs : NDArray64 :=
  mkArray64 2 [[huge; huge]; [float_of_int 1; float_of_int 1]].

(** ** Selections of candidates, for the statements *)





(** ** Sums, sorting and sub-multisets *)

Section Sums.
Local Open Scope Q_scope.

Lemma Qsum_perm (l1 l2 : list Q) : l1 ≡ₚ l2 → Qsum l1 == Qsum l2.
Proof.
  induction 1 as [| x l1 l2 _ IH | x y l | l1 l2 l3 _ IH1 _ IH2]; simpl.
  - reflexivity.
  - now rewrite IH.
  - ring.
  - now rewrite IH1.
Qed.

Lemma Qsum_nonneg (l : list Q) : Forall (λ x, 0 <= x) l → 0 <= Qsum l.
Proof. induction 1 as [|x l Hx _ IH]; simpl; lra. Qed.

Lemma np_sort_perm (l : list Q) : np_sort l ≡ₚ l.
Proof. symmetry. apply QSort.Permuted_sort. Qed.

Lemma np_sort_length (l : list Q) : length (np_sort l) = length l.
Proof. apply Permutation_length, np_sort_perm. Qed.

Lemma np_sort_sorted (l : list Q) : StronglySorted Qle (np_sort l).
Proof.
  assert (Htr : Transitive (λ x y : Q, is_true (QOrder.leb x y))).
  { intros x y z. unfold QOrder.leb, is_true. rewrite !Qle_bool_iff. lra. }
  pose proof (QSort.StronglySorted_sort l Htr) as Hs.
  unfold np_sort. induction Hs as [|x s Hs IH Hx]; constructor; [done|].
  eapply Forall_impl; [exact Hx|].
  intros y. unfold QOrder.leb, is_true. now rewrite Qle_bool_iff.
Qed.

(** The first entries of an ascending list sum to no more than any
    sub-multiset of the same cardinality. *)
Lemma sorted_prefix_minimal (s : list Q) :
  StronglySorted Qle s →
  ∀ sel, sel ⊆+ s → Qsum (take (length sel) s) <= Qsum sel.
Proof.
  induction 1 as [|x s Hs IH Hx]; intros sel Hsel.
  - apply submseteq_nil_r in Hsel as ->. simpl. lra.
  - apply submseteq_cons_r in Hsel as [Hsel | (sel' & Hp & Hsel)].
    + destruct sel as [|y sel]; [simpl; lra|].
      simpl. assert (Hy : y ∈ s).
      { eapply elem_of_submseteq; [|exact Hsel]. apply elem_of_cons. now left. }
      rewrite Forall_forall in Hx. apply Hx in Hy.
      assert (Hsel' : sel ⊆+ s).
      { etrans; [|exact Hsel]. now apply submseteq_cons. }
      specialize (IH _ Hsel'). lra.
    + rewrite (Qsum_perm _ _ Hp), (Permutation_length Hp). simpl.
      specialize (IH _ Hsel). lra.
Qed.

(** The [size] smallest entries cost no more than any [size] entries. *)
Lemma smallest_minimal (l sel : list Q) :
  sel ⊆+ l → Qsum (take (length sel) (np_sort l)) <= Qsum sel.
Proof.
  intros Hsel. apply sorted_prefix_minimal; [apply np_sort_sorted|].
  now rewrite np_sort_perm.
Qed.

Lemma take_np_sort_submseteq (n : nat) (l : list Q) : take n (np_sort l) ⊆+ l.
Proof.
  etrans; [apply sublist_submseteq, sublist_take|].
  now rewrite np_sort_perm.
Qed.

(** Restricting the pool of entries cannot lower the cost of the best
    [n] of them. *)
Lemma smallest_submseteq (n : nat) (l1 l2 : list Q) :
  l1 ⊆+ l2 → (n ≤ length l1)%nat →
  Qsum (take n (np_sort l2)) <= Qsum (take n (np_sort l1)).
Proof.
  intros Hsub Hn.
  assert (Hlen : length (take n (np_sort l1)) = n).
  { rewrite length_take, np_sort_length. lia. }
  rewrite <- Hlen at 1. apply smallest_minimal.
  etrans; [apply take_np_sort_submseteq | exact Hsub].
Qed.

Lemma smallest_perm (n : nat) (l1 l2 : list Q) :
  l1 ≡ₚ l2 → Qsum (take n (np_sort l1)) == Qsum (take n (np_sort l2)).
Proof.
  intros Hp. destruct (le_lt_dec n (length l1)) as [Hn|Hn].
  - apply Qle_antisym; apply smallest_submseteq;
      rewrite ?Hp; try done; now rewrite <- ?Hp.
  - rewrite !take_ge by (rewrite np_sort_length, <- ?Hp; lia).
    rewrite !(Qsum_perm _ _ (np_sort_perm _)). now apply Qsum_perm.
Qed.

End Sums.

(** ** The best-subset cost *)

Section BestSubset.
Local Open Scope Q_scope.

Lemma slice_to_nonneg {A} (l : list A) (size : Z) :
  (0 ≤ size)%Z → slice_to l size = take (Z.to_nat size) l.
Proof. intros H. unfold slice_to. now rewrite (Zle_imp_le_bool _ _ H). Qed.

Lemma proportional_assignment_cost_ok (a : NDArray) (size : Z) :
  (size ≤ len a)%Z →
  proportional_assignment_cost a size
  = Ok (Qsum (slice_to (np_sort (candidate_costs a)) size)).
Proof.
  intros H. unfold proportional_assignment_cost.
  destruct (Z.ltb_spec (len a) size); [lia | done].
Qed.

Lemma candidate_costs_length (a : NDArray) :
  Z.of_nat (length (candidate_costs a)) = len a.
Proof. unfold candidate_costs, len. now rewrite length_map. Qed.








(** C7: [proportional_assignment_cost] raises, and then the size-validation
    [ValueError], exactly when [size] exceeds the number of rows; for every
    other size, zero and negative sizes included, it returns a cost. *)
Theorem C7_size_validation (a : NDArray) (size : Z) :
  (proportional_assignment_cost a size = Raise ValueError ↔ (len a < size)%Z)
  ∧ (is_ok (proportional_assignment_cost a size) = true ↔ (size ≤ len a)%Z)
  ∧ ∀ e, proportional_assignment_cost a size = Raise e → e = ValueError.
Proof.
  unfold proportional_assignment_cost.
  destruct (Z.ltb_spec (len a) size) as [H|H]; simpl.
  - repeat split; try done; try lia. congruence.
  - repeat split; try done; try lia.
Qed.

Lemma C7_witness :
  proportional_assignment_cost scenario_costs 4 = Raise ValueError
  ∧ is_ok (proportional_assignment_cost scenario_costs (-1)) = true.
Proof.
  split.
  - apply (C7_size_validation scenario_costs 4). reflexivity.
  - apply (C7_size_validation scenario_costs (-1)). discriminate.
Defined.

End BestSubset.

(** ** The group inefficiency score *)

Section GroupInefficiency.
Local Open Scope Q_scope.

Lemma mapR_total {A B} (f : A → result B) (g : A → B) (l : list A) :
  Forall (λ a, f a = Ok (g a)) l → mapR f l = Ok (g <$> l).
Proof.
  induction 1 as [|a l Ha _ IH]; simpl; [done|].
  now rewrite Ha, IH.
Qed.

Lemma norm_index_in_range (n : nat) (i : Z) :
  (0 ≤ i < Z.of_nat n)%Z → norm_index n i = Ok (Z.to_nat i).
Proof.
  intros [H0 Hn]. unfold norm_index.
  destruct (Z.leb_spec 0 i); [|lia].
  destruct (Z.ltb_spec i (Z.of_nat n)); [done | lia].
Qed.

Lemma take_rows_in_range (a : NDArray) (idx : list Z) :
  Forall (λ i, 0 ≤ i < len a)%Z idx →
  take_rows a idx = Ok (mkArray (ncols a) (row_at a <$> idx)).
Proof.
  intros Hidx. unfold take_rows.
  rewrite (mapR_total _ (row_at a)); [done|].
  eapply Forall_impl; [exact Hidx|]. intros i Hi. unfold len in Hi.
  rewrite norm_index_in_range by done. simpl.
  unfold row_at.
  destruct (rows a !! Z.to_nat i) as [r|] eqn:Hr.
  - now rewrite (nth_lookup_Some _ _ _ _ Hr).
  - apply lookup_ge_None in Hr. lia.
Qed.

Lemma all_rows (a : NDArray) : row_at a <$> seqZ 0 (len a) = rows a.
Proof.
  apply list_eq. intros j. rewrite list_lookup_fmap. unfold len.
  destruct (decide (j < length (rows a))%nat) as [Hj|Hj].
  - rewrite lookup_seqZ_lt by lia. simpl. unfold row_at.
    rewrite Z.add_0_l, Nat2Z.id.
    destruct (lookup_lt_is_Some_2 (rows a) j Hj) as [r Hr].
    now rewrite Hr, (nth_lookup_Some _ _ _ _ Hr).
  - rewrite lookup_seqZ_ge by lia. simpl.
    symmetry. apply lookup_ge_None. lia.
Qed.


(** An enumeration of all the indices selects a permutation of the rows. *)
Lemma selected_rows_perm (a : NDArray) (idx : list Z) :
  idx ≡ₚ seqZ 0 (len a) → row_at a <$> idx ≡ₚ rows a.
Proof. intros Hp. rewrite <- (all_rows a) at 1. now apply fmap_Permutation. Qed.



Lemma select_cols_len (a bd : NDArray) (mask : list bool) :
  select_cols a mask = Ok bd → len bd = len a.
Proof.
  unfold select_cols. case_decide; [|done]. intros [= <-].
  unfold len. simpl. now rewrite length_map.
Qed.


Lemma xdiv_finite (a b : Q) : ¬ b == 0 → xdiv (Finite a) (Finite b) = Finite (a / b).
Proof.
  intros Hb. simpl. destruct (Qeq_bool b 0) eqn:E; [|done].
  now apply Qeq_bool_iff in E.
Qed.

Lemma xdiv_zero (a b : Q) : b == 0 → xdiv (Finite a) (Finite b) = xinf_of (Qsign a).
Proof. intros Hb. simpl. apply Qeq_bool_iff in Hb. now rewrite Hb. Qed.

(** The body of [group_inefficiency] once the size is known and nonzero
    and the two indexing steps have gone through. *)
Lemma group_inefficiency_unfold (cst : NDArray) (winners labels : list Z)
    (bloc : Z) (size : option Z) (s : Z) (bd w : NDArray) (c1 c2 : Q) :
  effective_size cst winners labels bloc size = Ok s →
  s ≠ 0%Z →
  select_cols cst (labels_eq labels bloc) = Ok bd →
  take_rows bd winners = Ok w →
  proportional_assignment_cost w s = Ok c1 →
  proportional_assignment_cost bd s = Ok c2 →
  group_inefficiency cst winners labels bloc size
  = Ok (xdiv (Finite c1) (Finite c2)).
Proof.
  intros Hs Hnz Hbd Hw Hc1 Hc2. unfold group_inefficiency.
  rewrite Hs. simpl. destruct (Z.eqb_spec s 0); [done|]. simpl.
  rewrite Hbd. simpl. rewrite Hw. simpl. rewrite Hc1. simpl.
  now rewrite Hc2.
Qed.

Lemma winners_best_subset (bd : NDArray) (winners : list Z) (s : Z) :
  Forall (λ i, 0 ≤ i < len bd)%Z winners →
  (0 < s ≤ Z.of_nat (length winners))%Z →
  let w := mkArray (ncols bd) (row_at bd <$> winners) in
  take_rows bd winners = Ok w
  ∧ proportional_assignment_cost w s
    = Ok (Qsum (take (Z.to_nat s) (np_sort (candidate_costs w)))).
Proof.
  intros Hidx Hs w. split; [now apply take_rows_in_range|].
  rewrite proportional_assignment_cost_ok.
  - now rewrite slice_to_nonneg by lia.
  - unfold len, w. simpl. rewrite length_fmap. lia.
Qed.



(** On [far_costs] with its one candidate as winner and size 1, every sum
    the score needs has at most two terms, so the order of the additions
    has no say: the row sum overflows to [+inf] and the score is
    [inf / inf]. *)
Lemma far_score_is_nan_in_every_order
    (np_sum64 : list spec_float → spec_float) :
  (∀ x, np_sum64 [x] = x) →
  (∀ x y, np_sum64 [x; y] = fadd x y) →
  group_inefficiency64 np_sum64 far_costs [0]%Z [1; 1]%Z 1 (Some 1%Z)
  = Ok S754_nan.
Proof.
  intros H1 H2.
  unfold group_inefficiency64, select_cols64, take_rows64,
    proportional_assignment_cost64, candidate_costs64. simpl.
  rewrite !H2. unfold huge. vm_compute (fadd _ _). simpl.
  change (slice_to [S754_infinity false] 1) with [S754_infinity false].
  rewrite !H1. reflexivity.
Qed.


(** C6, in exact arithmetic (the sums and the quotient taken without
    rounding or overflow): when the winner indices enumerate all [m] rows,
    for every effective size [s] with [0 < s <= m] and nonzero denominator,
    [group_inefficiency] returns 1. *)
Theorem C6_full_pool_identity (cst : NDArray) (winners labels : list Z)
    (bloc : Z) (size : option Z) (s : Z) (bd : NDArray) (cost2 : Q) :
  winners ≡ₚ seqZ 0 (len cst) →
  effective_size cst winners labels bloc size = Ok s →
  (0 < s ≤ len cst)%Z →
  select_cols cst (labels_eq labels bloc) = Ok bd →
  proportional_assignment_cost bd s = Ok cost2 →
  ¬ cost2 == 0 →
  ∃ q : Q,
    group_inefficiency cst winners labels bloc size = Ok (Finite q)
    ∧ q == 1.
Proof.
  intros Hp Hs Hsm Hbd Hc2 Hnz.
  pose proof (select_cols_len _ _ _ Hbd) as Hlen.
  assert (Hk : Z.of_nat (length winners) = len bd).
  { rewrite Hp, length_seqZ, Hlen. unfold len. lia. }
  assert (Hidx : Forall (λ i, 0 ≤ i < len bd)%Z winners).
  { apply Forall_forall. intros i Hi. rewrite Hp in Hi.
    apply elem_of_seqZ in Hi. lia. }
  destruct (winners_best_subset bd winners s Hidx) as [Hw Hc1]; [lia|].
  set (w := mkArray (ncols bd) (row_at bd <$> winners)) in *.
  set (cost1 := Qsum (take (Z.to_nat s) (np_sort (candidate_costs w)))) in *.
  assert (Hcc : candidate_costs w ≡ₚ candidate_costs bd).
  { unfold candidate_costs, w. simpl. apply fmap_Permutation.
    apply selected_rows_perm. now rewrite Hlen. }
  rewrite proportional_assignment_cost_ok in Hc2 by lia.
  rewrite slice_to_nonneg in Hc2 by lia. injection Hc2 as Hc2.
  exists (cost1 / cost2).
  split.
  - rewrite (group_inefficiency_unfold _ _ _ _ _ s bd w cost1 cost2); try done.
    + now rewrite xdiv_finite.
    + lia.
    + rewrite proportional_assignment_cost_ok, slice_to_nonneg by lia.
      now rewrite Hc2.
  - unfold cost1. rewrite (smallest_perm _ _ _ Hcc), Hc2. now field.
Qed.

Lemma C6_witness :
  ∃ q : Q,
    group_inefficiency line_costs [2; 0; 1]%Z [1; 1; 0; 0]%Z 1 (Some 2%Z)
    = Ok (Finite q)
    ∧ q == 1.
Proof.
  apply (C6_full_pool_identity line_costs [2; 0; 1]%Z [1; 1; 0; 0]%Z 1
           (Some 2%Z) 2 line_costs_bloc (10 # 1)).
  - exact (Permutation_cons_append [0; 1]%Z 2%Z).
  - reflexivity.
  - split; [reflexivity | discriminate].
  - vm_compute. reflexivity.
  - vm_compute. reflexivity.
  - discriminate.
Defined.

(** On [far_and_near_costs] with both candidates as winners and size 2,
    again no sum has more than two terms: one row sum overflows, and so do
    both best-subset costs. *)
Lemma far_and_near_score_is_nan_in_every_order
    (np_sum64 : list spec_float → spec_float) :
  (∀ x y, np_sum64 [x; y] = fadd x y) →
  group_inefficiency64 np_sum64 far_and_near_costs [1; 0]%Z [1; 1]%Z 1
    (Some 2%Z)
  = Ok S754_nan.
Proof.
  intros H2.
  unfold group_inefficiency64, select_cols64, take_rows64,
    proportional_assignment_cost64, candidate_costs64. simpl.
  rewrite !H2. unfold huge. vm_compute (fadd _ _).
  vm_compute (fadd (float_of_int 1) (float_of_int 1)).
  vm_compute (np_sort64 _). vm_compute (slice_to _ _).
  rewrite !H2. reflexivity.
Qed.

(** C6 fails as stated, in float64: a candidate at distance [2 ** 1023]
    from both voters and one at distance 1, both candidates winners, size
    2. The winners cover the whole pool and the denominator is [+inf], not
    zero; both best-subset costs overflow to [+inf] and the score is
    [inf / inf], which is NaN and is not equal to 1. *)
Lemma C6_counterexample :
  candidate_costs64 sequential_sum far_and_near_costs
  = [S754_infinity false; float_of_int 2]
  ∧ proportional_assignment_cost64 sequential_sum far_and_near_costs 2
    = Ok (S754_infinity false)
  ∧ group_inefficiency64 sequential_sum far_and_near_costs [1; 0]%Z
      [1; 1]%Z 1 (Some 2%Z)
    = Ok S754_nan
  ∧ SFeqb S754_nan (float_of_int 1) = false.
Proof. vm_compute. repeat split. Qed.

(** C4: when the effective size is 0, supplied as 0 or computed
    proportionally as 0, [group_inefficiency] returns 0 and raises
    nothing. *)
Theorem C4_zero_size_returns_zero (cst : NDArray) (winners labels : list Z)
    (bloc : Z) (size : option Z) :
  size = Some 0%Z
  ∨ (size = None
     ∧ proportional_size
         (Z.of_nat (count_true (labels_eq labels bloc)))
         (Z.of_nat (ncols cst)) (Z.of_nat (length winners)) = Ok 0%Z) →
  group_inefficiency cst winners labels bloc size = Ok (Finite 0).
Proof.
  intros [-> | [-> Hp]]; unfold group_inefficiency, effective_size; simpl.
  - done.
  - now rewrite Hp.
Qed.

Lemma C4_witness :
  group_inefficiency line_costs [2]%Z [1; 0; 0; 0]%Z 7 (Some 0%Z)
  = Ok (Finite 0)
  ∧ group_inefficiency line_costs [2; 0]%Z [1; 0; 0; 0]%Z 1 None
    = Ok (Finite 0).
Proof.
  split.
  - apply (C4_zero_size_returns_zero line_costs [2]%Z [1; 0; 0; 0]%Z 7).
    left. reflexivity.
  - apply (C4_zero_size_returns_zero line_costs [2; 0]%Z [1; 0; 0; 0]%Z 1).
    right. split; [reflexivity | vm_compute; reflexivity].
Defined.

(** C2, as the code has it: there is no guard. When the size is nonzero
    and [cost2] is 0, [group_inefficiency] evaluates [cost1 / cost2] all the
    same and returns, without raising, NaN when [cost1] is 0 too, and an
    infinity of the sign of [cost1] otherwise: never a number. *)
Theorem C2_zero_denominator_is_not_guarded (cst : NDArray)
    (winners labels : list Z) (bloc : Z) (size : option Z) (s : Z)
    (bd w : NDArray) (cost1 cost2 : Q) :
  effective_size cst winners labels bloc size = Ok s →
  s ≠ 0%Z →
  select_cols cst (labels_eq labels bloc) = Ok bd →
  take_rows bd winners = Ok w →
  proportional_assignment_cost w s = Ok cost1 →
  proportional_assignment_cost bd s = Ok cost2 →
  cost2 == 0 →
  group_inefficiency cst winners labels bloc size = Ok (zero_division cost1)
  ∧ is_finite (zero_division cost1) = false.
Proof.
  intros Hs Hnz Hbd Hw Hc1 Hc2 Hz. split.
  - rewrite (group_inefficiency_unfold _ _ _ _ _ s bd w cost1 cost2) by done.
    now rewrite xdiv_zero.
  - unfold zero_division. now destruct (cost1 ?= 0).
Qed.

Lemma C2_witness :
  group_inefficiency scenario_costs [1]%Z [0; 1]%Z 1 (Some 1%Z)
  = Ok (zero_division (5 # 1))
  ∧ is_finite (zero_division (5 # 1)) = false.
Proof.
  apply (C2_zero_denominator_is_not_guarded scenario_costs [1]%Z [0; 1]%Z 1
           (Some 1%Z) 1 (mkArray 1 [[10]; [5]; [0]]) (mkArray 1 [[5]])
           (5 # 1) (0 # 1)).
  - reflexivity.
  - discriminate.
  - vm_compute. reflexivity.
  - vm_compute. reflexivity.
  - vm_compute. reflexivity.
  - vm_compute. reflexivity.
  - reflexivity.
Defined.

(** C2 fails as stated: with the second voter alone in the bloc and a
    candidate at that voter's position, [cost2] is 0; the score of winner 1
    is [+inf] and the score of winner 2 is NaN. Neither call raises, and
    neither returns a number. *)
Lemma C2_counterexample :
  select_cols scenario_costs (labels_eq [0; 1]%Z 1)
  = Ok (mkArray 1 [[10]; [5]; [0]])
  ∧ proportional_assignment_cost (mkArray 1 [[10]; [5]; [0]]) 1 = Ok 0
  ∧ group_inefficiency scenario_costs [1]%Z [0; 1]%Z 1 (Some 1%Z) = Ok PosInf
  ∧ group_inefficiency scenario_costs [2]%Z [0; 1]%Z 1 (Some 1%Z) = Ok NaN.
Proof. vm_compute. repeat split. Qed.

(** C5, at inputs where the code departs from the claim. One voter out
    of 49 is in the bloc and all 49 candidates win: the exact proportion is
    [1 * 49 / 49 = 1], but [1 / 49] rounds below one 49th in float64 and
    its product with 49 rounds to the float just below 1, so the computed
    size is 0 and the score is the sentinel 0, where size 1 gives the
    score 1. Likewise a bloc of 58 voters out of 100 with 50 winners gets
    size 28, not 29, and 15 voters out of 22 with 22 winners get 14. *)
Theorem C5_float_size_is_not_the_exact_floor :
  (1 * 49 / 49 = 1)%Z
  ∧ proportional_size 1 49 49 = Ok 0%Z
  ∧ effective_size (uniform_costs 49 49) (seqZ 0 49) (lone_voter 48) 1 None
    = Ok 0%Z
  ∧ group_inefficiency (uniform_costs 49 49) (seqZ 0 49) (lone_voter 48) 1 None
    = Ok (Finite 0)
  ∧ group_inefficiency (uniform_costs 49 49) (seqZ 0 49) (lone_voter 48) 1
      (Some 1%Z)
    = Ok (Finite 1)
  ∧ (58 * 50 / 100 = 29)%Z
  ∧ proportional_size 58 100 50 = Ok 28%Z
  ∧ (15 * 22 / 22 = 15)%Z
  ∧ proportional_size 15 22 22 = Ok 14%Z.
Proof. vm_compute. repeat split. Qed.

End GroupInefficiency.

(** ** Construction of the cost array *)

Section CostArray.
Local Open Scope Q_scope.

Lemma mapR_ok {A B} (f : A → result B) (l : list A) :
  (∀ a, a ∈ l → is_ok (f a) = true) →
  ∃ bs, mapR f l = Ok bs ∧ Forall2 (λ a b, f a = Ok b) l bs.
Proof.
  induction l as [|a l IH]; intros Hok; simpl.
  - exists []. split; [done | constructor].
  - destruct (f a) as [b|e] eqn:Ha.
    + destruct IH as (bs & -> & Hbs).
      { intros a' Ha'. apply Hok. now apply elem_of_cons; right. }
      exists (b :: bs). split; [done | now constructor].
    + specialize (Hok a (list_elem_of_here _ _)). now rewrite Ha in Hok.
Qed.

Lemma mapR_raise {A B} (f : A → result B) (l : list A) (e : exn) :
  mapR f l = Raise e → ∃ a, a ∈ l ∧ f a = Raise e.
Proof.
  induction l as [|a l IH]; simpl; [done|].
  destruct (f a) as [b|e'] eqn:Ha; simpl.
  - destruct (mapR f l) as [bs|e'']; simpl; [done|].
    intros [= ->]. destruct IH as (a' & Ha' & Hf); [done|].
    exists a'. split; [now apply elem_of_cons; right | done].
  - intros [= ->]. exists a. split; [apply list_elem_of_here | done].
Qed.

Lemma mapR_Ok_inv {A B} (f : A → result B) (l : list A) (bs : list B) :
  mapR f l = Ok bs → Forall2 (λ a b, f a = Ok b) l bs.
Proof.
  revert bs. induction l as [|a l IH]; simpl; intros bs.
  - intros [= <-]. constructor.
  - destruct (f a) as [b|e] eqn:Ha; simpl; [|done].
    destruct (mapR f l) as [bs'|e]; simpl; [|done].
    intros [= <-]. constructor; [done | now apply IH].
Qed.

(** C8, as the code has it: [cost_array] validates nothing. With no voter
    it returns the array of [m] empty rows, with no candidate the array
    with no row; it returns an [m] by [n] array whenever [distance_fn]
    returns on every pair, whatever the dimensions of the points; and an
    exception leaving [cost_array] is one [distance_fn] raised on some
    (voter, candidate) pair. *)
Theorem C8_cost_array_validates_nothing
    (distance_fn : list Q → list Q → result Q) (V C : NDArray) :
  (rows V = [] →
   cost_array distance_fn V C
   = Ok (mkArray 0 (replicate (length (rows C)) [])))
  ∧ (rows C = [] →
     cost_array distance_fn V C = Ok (mkArray (length (rows V)) []))
  ∧ ((∀ v c, v ∈ rows V → c ∈ rows C → is_ok (distance_fn v c) = true) →
     ∃ M, cost_array distance_fn V C = Ok M
          ∧ len M = len C ∧ ncols M = length (rows V) ∧ wf_array M)
  ∧ (∀ e, cost_array distance_fn V C = Raise e →
     ∃ v c, v ∈ rows V ∧ c ∈ rows C ∧ distance_fn v c = Raise e).
Proof.
  unfold cost_array. repeat split.
  - intros ->.
    rewrite (mapR_total _ (λ _, [])) by now apply Forall_forall.
    simpl. f_equal. f_equal. now apply const_fmap.
  - now intros ->.
  - intros Hok.
    destruct (mapR_ok (λ c, mapR (λ v, distance_fn v c) (rows V)) (rows C))
      as (dists & -> & Hd).
    { intros c Hc.
      destruct (mapR_ok (λ v, distance_fn v c) (rows V)) as (r & -> & _);
        [|done].
      intros v Hv. now apply Hok. }
    eexists. split; [done|]. unfold len, wf_array. simpl.
    split; [|split; [done|]].
    + apply Forall2_length in Hd. lia.
    + clear Hok. induction Hd as [|c r cs rs Hr _ IH]; constructor; [|done].
      apply mapR_Ok_inv, Forall2_length in Hr. simpl. lia.
  - intros e He.
    destruct (mapR (λ c, mapR (λ v, distance_fn v c) (rows V)) (rows C))
      as [dists|e'] eqn:Hm; simpl in He; [done|]. injection He as ->.
    apply mapR_raise in Hm as (c & Hc & Hm).
    apply mapR_raise in Hm as (v & Hv & Hm).
    now exists v, c.
Qed.

Lemma C8_witness :
  cost_array taxicab (mkArray 2 []) (mkArray 2 [[0; 0]; [5; 0]])
  = Ok (mkArray 0 [[]; []])
  ∧ cost_array taxicab (mkArray 2 [[0; 0]]) (mkArray 2 [])
    = Ok (mkArray 1 [])
  ∧ ∃ M, cost_array taxicab (mkArray 1 [[3]]) (mkArray 2 [[0; 4]]) = Ok M
         ∧ len M = 1%Z ∧ ncols M = 1%nat ∧ wf_array M.
Proof.
  split; [|split].
  - apply (C8_cost_array_validates_nothing taxicab (mkArray 2 [])
             (mkArray 2 [[0; 0]; [5; 0]])).
    reflexivity.
  - apply (C8_cost_array_validates_nothing taxicab (mkArray 2 [[0; 0]])
             (mkArray 2 [])).
    reflexivity.
  - apply (C8_cost_array_validates_nothing taxicab (mkArray 1 [[3]])
             (mkArray 2 [[0; 4]])).
    intros v c _ _. reflexivity.
Defined.

(** C8 fails as stated: with the taxicab distance, [cost_array] returns an
    array for no voter (one empty row per candidate), for no candidate (no
    row), and for a voter on the line against a candidate in the plane. *)
Lemma C8_counterexample :
  cost_array taxicab (mkArray 2 []) (mkArray 2 [[0; 0]; [5; 0]])
  = Ok (mkArray 0 [[]; []])
  ∧ cost_array taxicab (mkArray 2 [[0; 0]]) (mkArray 2 [])
    = Ok (mkArray 1 [])
  ∧ cost_array taxicab (mkArray 1 [[3]]) (mkArray 2 [[0; 4]])
    = Ok (mkArray 1 [[3]]).
Proof. vm_compute. repeat split. Qed.

Lemma broadcastable_refl (d : nat) : broadcastable d d = true.
Proof. unfold broadcastable. now rewrite bool_decide_eq_true_2. Qed.

Lemma sub_broadcast_same_length (x y : list Q) :
  length x = length y → sub_broadcast x y = zip_with Qminus x y.
Proof. intros H. unfold sub_broadcast. now rewrite decide_True. Qed.

Lemma sum_of_squares_is_squared_distance (x y : list Q) :
  Qsum (map (λ d, d ^ 2) (zip_with Qminus x y)) = squared_distance x y.
Proof.
  revert y. induction x as [|a x IH]; intros [|b y]; simpl; try done.
  unfold Qsum in IH. now rewrite IH.
Qed.

(** C9: on voter and candidate arrays of the same dimension,
    [euclidean_cost_array] returns the same [m] by [n] array as
    [cost_array] called with the Euclidean distance, whatever function
    computes the square root: the broadcast difference, the elementwise
    square and the sum over the last axis give, for each pair, the squared
    distance of the voter and the candidate. *)
Theorem C9_euclidean_fast_path_agrees (sqrt : Q → Q) (V C : NDArray) :
  wf_array V → wf_array C → ncols V = ncols C →
  euclidean_cost_array sqrt V C = cost_array (euclidean_distance sqrt) V C
  ∧ ∃ M, euclidean_cost_array sqrt V C = Ok M
         ∧ len M = len C ∧ ncols M = length (rows V) ∧ wf_array M.
Proof.
  intros HV HC Hd.
  assert (He : euclidean_cost_array sqrt V C
    = Ok (mkArray (length (rows V))
            (map (λ c, map (λ v, norm2 sqrt (sub_broadcast v c)) (rows V))
                 (rows C)))).
  { unfold euclidean_cost_array. rewrite Hd, broadcastable_refl.
    do 2 f_equal. rewrite map_map. apply map_ext. intros c.
    now rewrite map_map. }
  split.
  - rewrite He. unfold cost_array.
    rewrite (mapR_total _
      (λ c, map (λ v, norm2 sqrt (sub_broadcast v c)) (rows V))); [done|].
    eapply Forall_impl; [exact HC|]. intros c Hc. simpl in Hc.
    apply mapR_total.
    eapply Forall_impl; [exact HV|]. intros v Hv. simpl in Hv.
    assert (Hlen : length v = length c) by congruence.
    unfold euclidean_distance, norm2.
    rewrite decide_True by done.
    now rewrite sub_broadcast_same_length, sum_of_squares_is_squared_distance.
  - eexists. split; [exact He|]. unfold len, wf_array. simpl.
    rewrite length_map. repeat split.
    apply Forall_forall. intros r Hr.
    apply list_elem_of_fmap in Hr as (c & -> & _). apply length_map.
Qed.

Lemma C9_witness :
  euclidean_cost_array (λ q, q) (mkArray 2 [[0; 0]; [10; 0]])
    (mkArray 2 [[0; 0]; [5; 0]; [10; 0]])
  = cost_array (euclidean_distance (λ q, q)) (mkArray 2 [[0; 0]; [10; 0]])
      (mkArray 2 [[0; 0]; [5; 0]; [10; 0]])
  ∧ ∃ M, euclidean_cost_array (λ q, q) (mkArray 2 [[0; 0]; [10; 0]])
           (mkArray 2 [[0; 0]; [5; 0]; [10; 0]]) = Ok M
         ∧ len M = len (mkArray 2 [[0; 0]; [5; 0]; [10; 0]])
         ∧ ncols M = length (rows (mkArray 2 [[0; 0]; [10; 0]]))
         ∧ wf_array M.
Proof.
  apply (C9_euclidean_fast_path_agrees (λ q, q) (mkArray 2 [[0; 0]; [10; 0]])
           (mkArray 2 [[0; 0]; [5; 0]; [10; 0]])).
  - repeat constructor.
  - repeat constructor.
  - reflexivity.
Defined.

End CostArray.

(** ** Aggregates and the best-subset cost: further properties *)

Section Aggregates.
Local Open Scope Q_scope.

Lemma Qsum_app (l1 l2 : list Q) : Qsum (l1 ++ l2) == Qsum l1 + Qsum l2.
Proof. induction l1 as [|x l1 IH]; simpl; [|rewrite IH]; ring. Qed.

Lemma Qsum_concat (ls : list (list Q)) : Qsum (concat ls) == Qsum (map Qsum ls).
Proof.
  induction ls as [|l ls IH]; simpl; [reflexivity|].
  now rewrite Qsum_app, IH.
Qed.

Lemma Qsum_map_plus {A} (f g : A → Q) (l : list A) :
  Qsum (map (λ a, f a + g a) l) == Qsum (map f l) + Qsum (map g l).
Proof. induction l as [|a l IH]; simpl; [|rewrite IH]; ring. Qed.

Lemma Qsum_map_zero {A} (l : list A) : Qsum (map (λ _, 0) l) == 0.
Proof. induction l as [|a l IH]; simpl; [|rewrite IH]; ring. Qed.

Lemma nth_seq_self (r : list Q) :
  map (λ j, nth j r 0) (seq 0 (length r)) = r.
Proof.
  apply list_eq. intros j. rewrite list_lookup_fmap.
  destruct (decide (j < length r)%nat) as [Hj|Hj].
  - rewrite lookup_seq_lt by done. simpl.
    destruct (lookup_lt_is_Some_2 r j Hj) as [x Hx].
    now rewrite Hx, (nth_lookup_Some _ _ _ _ Hx).
  - rewrite (proj2 (lookup_ge_None (seq 0 (length r)) j))
      by (rewrite length_seq; lia).
    symmetry. apply lookup_ge_None. lia.
Qed.

(** X1: on a well-formed array the three aggregates agree: the total
    [cost] is the sum of the per-candidate costs and also the sum of the
    per-voter costs. *)
Theorem X1_cost_is_sum_of_candidate_and_voter_costs (a : NDArray) :
  wf_array a →
  cost a == Qsum (candidate_costs a) ∧ cost a == Qsum (voter_costs a).
Proof.
  intros Hwf. unfold cost, candidate_costs, voter_costs, column.
  rewrite Qsum_concat. split; [reflexivity|].
  destruct a as [n rs]. unfold wf_array in Hwf. simpl in *.
  induction Hwf as [|r rs Hr _ IH]; simpl.
  - now rewrite Qsum_map_zero.
  - rewrite Qsum_map_plus, <- IH, <- Hr at 1. now rewrite nth_seq_self.
Qed.

Lemma X1_witness :
  cost line_costs == Qsum (candidate_costs line_costs)
  ∧ cost line_costs == Qsum (voter_costs line_costs).
Proof.
  apply (X1_cost_is_sum_of_candidate_and_voter_costs line_costs).
  repeat constructor.
Defined.

(** X2: asking [proportional_assignment_cost] for as many candidates as
    there are rows returns the total cost of the array. *)
Theorem X2_best_subset_of_all_rows_is_total_cost (a : NDArray) :
  ∃ c, proportional_assignment_cost a (len a) = Ok c ∧ c == cost a.
Proof.
  eexists. split.
  - apply proportional_assignment_cost_ok. lia.
  - rewrite slice_to_nonneg by (unfold len; lia).
    rewrite take_ge
      by (rewrite np_sort_length; pose proof (candidate_costs_length a); lia).
    rewrite (Qsum_perm _ _ (np_sort_perm _)).
    unfold cost. now rewrite Qsum_concat.
Qed.

Lemma take_take_le {A} (n1 n2 : nat) (l : list A) :
  (n1 ≤ n2)%nat → take n1 l = take n1 (take n2 l).
Proof. intros H. rewrite take_take. f_equal. lia. Qed.

Lemma Qsum_take_mono (n1 n2 : nat) (l : list Q) :
  Forall (λ x, 0 <= x) l → (n1 ≤ n2)%nat →
  Qsum (take n1 l) <= Qsum (take n2 l).
Proof.
  intros Hl Hn. rewrite (take_take_le n1 n2) by done.
  rewrite <- (take_drop n1 (take n2 l)) at 2. rewrite Qsum_app.
  assert (0 <= Qsum (drop n1 (take n2 l))); [|lra].
  apply Qsum_nonneg, Forall_drop, Forall_take, Hl.
Qed.

(** X3: on an array with non-negative entries the best-subset cost grows
    with the size: for [0 <= size1 <= size2 <= m], the cost for [size1] is
    at most the cost for [size2]. *)
Theorem X3_best_subset_cost_monotone_in_size (a : NDArray) (size1 size2 : Z) :
  nonneg_array a →
  (0 ≤ size1 ≤ size2)%Z → (size2 ≤ len a)%Z →
  ∃ c1 c2,
    proportional_assignment_cost a size1 = Ok c1
    ∧ proportional_assignment_cost a size2 = Ok c2
    ∧ c1 <= c2.
Proof.
  intros Hnn H12 Hm. do 2 eexists.
  split; [apply proportional_assignment_cost_ok; lia|].
  split; [apply proportional_assignment_cost_ok; lia|].
  rewrite !slice_to_nonneg by lia.
  apply Qsum_take_mono; [|lia].
  rewrite np_sort_perm. unfold candidate_costs. apply Forall_fmap.
  eapply Forall_impl; [exact Hnn|]. intros r Hr. now apply Qsum_nonneg.
Qed.

Lemma X3_witness :
  ∃ c1 c2,
    proportional_assignment_cost line_costs 1 = Ok c1
    ∧ proportional_assignment_cost line_costs 3 = Ok c2
    ∧ c1 <= c2.
Proof.
  apply (X3_best_subset_cost_monotone_in_size line_costs 1 3).
  - repeat constructor; discriminate.
  - split; discriminate.
  - discriminate.
Defined.

(** X4: a negative size is not rejected; as a Python slice bound it
    counts from the end: size [-j] with [0 < j <= m] returns the cost of the
    [m - j] cheapest candidates, and any size at or below [-m] returns 0. *)
Theorem X4_negative_size_counts_from_the_end (a : NDArray) (j : Z) :
  (0 < j)%Z →
  ((j ≤ len a)%Z →
   proportional_assignment_cost a (- j)
   = proportional_assignment_cost a (len a - j))
  ∧ ((len a ≤ j)%Z → proportional_assignment_cost a (- j) = Ok 0).
Proof.
  intros Hj. pose proof (candidate_costs_length a) as Hlen.
  assert (Hs : length (np_sort (candidate_costs a)) = Z.to_nat (len a)).
  { rewrite np_sort_length. lia. }
  split; intros Hm.
  - rewrite !proportional_assignment_cost_ok by lia.
    rewrite (slice_to_nonneg _ (len a - j)) by lia.
    unfold slice_to. destruct (Z.leb_spec 0 (- j)); [lia|].
    rewrite Hs. do 3 f_equal. lia.
  - rewrite proportional_assignment_cost_ok by lia.
    unfold slice_to. destruct (Z.leb_spec 0 (- j)); [lia|].
    rewrite Hs. replace (Z.to_nat (len a) - Z.to_nat (- - j))%nat with 0%nat
      by lia.
    reflexivity.
Qed.

Lemma X4_witness :
  (proportional_assignment_cost line_costs (- 1)
   = proportional_assignment_cost line_costs (len line_costs - 1))
  ∧ proportional_assignment_cost line_costs (- 5) = Ok 0.
Proof.
  split.
  - apply (X4_negative_size_counts_from_the_end line_costs 1);
      [reflexivity | discriminate].
  - apply (X4_negative_size_counts_from_the_end line_costs 5);
      [reflexivity | discriminate].
Defined.

(** X5: the best-subset cost does not depend on the order of the
    candidates: two arrays whose rows are a permutation of one another get
    the same outcome for every size, the same exception or equal costs. *)
Theorem X5_best_subset_cost_ignores_candidate_order (a b : NDArray) (size : Z) :
  rows a ≡ₚ rows b →
  result_eqv Qeq (proportional_assignment_cost a size)
                 (proportional_assignment_cost b size).
Proof.
  intros Hp. unfold proportional_assignment_cost.
  assert (Hlen : len a = len b).
  { unfold len. now rewrite (Permutation_length Hp). }
  rewrite Hlen. destruct (Z.ltb_spec (len b) size); simpl; [done|].
  assert (Hcc : candidate_costs a ≡ₚ candidate_costs b).
  { unfold candidate_costs. now apply fmap_Permutation. }
  unfold slice_to. rewrite !np_sort_length, (Permutation_length Hcc).
  destruct (0 <=? size)%Z; now apply smallest_perm.
Qed.

Lemma X5_witness :
  result_eqv Qeq
    (proportional_assignment_cost (mkArray 2 [[1; 2]; [4; 3]]) 1)
    (proportional_assignment_cost (mkArray 2 [[4; 3]; [1; 2]]) 1).
Proof.
  apply (X5_best_subset_cost_ignores_candidate_order
           (mkArray 2 [[1; 2]; [4; 3]]) (mkArray 2 [[4; 3]; [1; 2]]) 1).
  apply perm_swap.
Defined.

End Aggregates.

(** ** The group inefficiency score: outcomes and invariances *)

Section Outcomes.
Local Open Scope Q_scope.

Lemma norm_index_valid (m : nat) (i : Z) :
  valid_index m i →
  norm_index m i = Ok (resolve m i) ∧ (resolve m i < m)%nat.
Proof.
  unfold valid_index, norm_index, resolve. intros Hi.
  assert (Hm : (0 < Z.of_nat m)%Z) by lia.
  pose proof (Z.mod_pos_bound i (Z.of_nat m) Hm) as Hb.
  destruct (Z.leb_spec 0 i), (Z.ltb_spec i (Z.of_nat m)); simpl; try lia.
  - rewrite Z.mod_small by lia. split; [done | lia].
  - destruct (Z.leb_spec (- Z.of_nat m) i), (Z.ltb_spec i 0); simpl; try lia.
    replace (i mod Z.of_nat m)%Z with (Z.of_nat m + i)%Z; [split; [done|lia]|].
    symmetry. rewrite <- (Z.mod_add i 1 (Z.of_nat m)) by lia.
    rewrite Z.mod_small; lia.
Qed.

Lemma norm_index_invalid (m : nat) (i : Z) :
  ¬ valid_index m i → norm_index m i = Raise IndexError.
Proof.
  unfold valid_index, norm_index. intros Hi.
  destruct (Z.leb_spec 0 i), (Z.ltb_spec i (Z.of_nat m)); simpl; try lia;
    destruct (Z.leb_spec (- Z.of_nat m) i), (Z.ltb_spec i 0); simpl;
    try lia; done.
Qed.

Lemma take_rows_valid (a : NDArray) (idx : list Z) :
  Forall (valid_index (length (rows a))) idx →
  take_rows a idx = Ok (mkArray (ncols a) (row_sel a <$> idx)).
Proof.
  intros Hidx. unfold take_rows.
  rewrite (mapR_total _ (row_sel a)); [done|].
  eapply Forall_impl; [exact Hidx|]. intros i Hi.
  destruct (norm_index_valid _ _ Hi) as [-> Hlt]. simpl.
  destruct (lookup_lt_is_Some_2 (rows a) _ Hlt) as [r Hr].
  rewrite Hr. unfold row_sel. now rewrite (nth_lookup_Some _ _ _ _ Hr).
Qed.

Lemma take_rows_invalid (a : NDArray) (idx : list Z) :
  ¬ Forall (valid_index (length (rows a))) idx →
  take_rows a idx = Raise IndexError.
Proof.
  intros Hidx. unfold take_rows.
  set (f := λ i : Z, j ← norm_index (length (rows a)) i ;
                     match rows a !! j with
                     | Some r => Ok r
                     | None => Raise IndexError
                     end).
  enough (mapR f idx = Raise IndexError) as -> by done.
  induction idx as [|i idx IH]; [now destruct Hidx|]. simpl.
  destruct (decide (valid_index (length (rows a)) i)) as [Hi|Hi].
  - rewrite IH; [|intros H; apply Hidx; now constructor].
    destruct (norm_index_valid _ _ Hi) as [Hn Hlt].
    destruct (lookup_lt_is_Some_2 (rows a) _ Hlt) as [r Hr].
    assert (f i = Ok r) as ->; [|done].
    unfold f. rewrite Hn. simpl. now rewrite Hr.
  - assert (f i = Raise IndexError) as ->; [|done].
    unfold f. now rewrite norm_index_invalid.
Qed.

Lemma row_sel_elem_of (a : NDArray) (i : Z) :
  valid_index (length (rows a)) i → row_sel a i ∈ rows a.
Proof.
  intros Hi. destruct (norm_index_valid _ _ Hi) as [_ Hlt].
  destruct (lookup_lt_is_Some_2 (rows a) _ Hlt) as [r Hr].
  unfold row_sel. rewrite (nth_lookup_Some _ _ _ _ Hr).
  now apply list_elem_of_lookup_2 in Hr.
Qed.

Lemma proportional_assignment_cost_raise (a : NDArray) (size : Z) :
  (len a < size)%Z → proportional_assignment_cost a size = Raise ValueError.
Proof.
  intros H. unfold proportional_assignment_cost.
  destruct (Z.ltb_spec (len a) size); [done | lia].
Qed.

(** The outcome of [group_inefficiency] once the size is known and nonzero
    and the bloc's columns have been selected. *)
Lemma group_inefficiency_outcome (cst : NDArray) (winners labels : list Z)
    (bloc : Z) (size : option Z) (s : Z) (bd : NDArray) :
  effective_size cst winners labels bloc size = Ok s →
  s ≠ 0%Z →
  select_cols cst (labels_eq labels bloc) = Ok bd →
  group_inefficiency cst winners labels bloc size
  = if decide (Forall (valid_index (length (rows cst))) winners) then
      if decide (s ≤ Z.of_nat (length winners) ∧ s ≤ len cst)%Z then
        Ok (xdiv
              (Finite (Qsum (slice_to (np_sort
                 (candidate_costs (mkArray (ncols bd) (row_sel bd <$> winners))))
                 s)))
              (Finite (Qsum (slice_to (np_sort (candidate_costs bd)) s))))
      else Raise ValueError
    else Raise IndexError.
Proof.
  intros Hs Hnz Hbd. unfold group_inefficiency. rewrite Hs. simpl.
  destruct (Z.eqb_spec s 0); [done|]. simpl. rewrite Hbd. simpl.
  pose proof (select_cols_len _ _ _ Hbd) as Hlen.
  assert (Hrows : length (rows bd) = length (rows cst)).
  { unfold len in Hlen. lia. }
  rewrite <- Hrows, <- Hlen.
  destruct (decide (Forall _ winners)) as [Hv|Hv].
  - rewrite take_rows_valid by done. simpl.
    set (w := mkArray (ncols bd) (row_sel bd <$> winners)).
    assert (Hw : len w = Z.of_nat (length winners)).
    { unfold len, w. simpl. now rewrite length_fmap. }
    destruct (decide (s ≤ Z.of_nat (length winners) ∧ s ≤ len bd)%Z)
      as [[H1 H2]|Hn].
    + now rewrite !proportional_assignment_cost_ok by lia.
    + destruct (Z.lt_ge_cases (len w) s) as [Hlt|Hge].
      * now rewrite (proportional_assignment_cost_raise w).
      * rewrite (proportional_assignment_cost_ok w) by lia. simpl.
        rewrite (proportional_assignment_cost_raise bd) by lia. done.
  - now rewrite take_rows_invalid.
Qed.

Lemma group_inefficiency_mask_mismatch (cst : NDArray)
    (winners labels : list Z) (bloc : Z) (size : option Z) (s : Z) :
  effective_size cst winners labels bloc size = Ok s →
  s ≠ 0%Z →
  length labels ≠ ncols cst →
  group_inefficiency cst winners labels bloc size = Raise IndexError.
Proof.
  intros Hs Hnz Hl. unfold group_inefficiency. rewrite Hs. simpl.
  destruct (Z.eqb_spec s 0); [done|]. simpl.
  unfold select_cols. rewrite decide_False; [done|].
  unfold labels_eq. now rewrite length_map.
Qed.

Lemma select_cols_fits (cst : NDArray) (labels : list Z) (bloc : Z) :
  length labels = ncols cst →
  ∃ bd, select_cols cst (labels_eq labels bloc) = Ok bd.
Proof.
  intros Hl. eexists. unfold select_cols. rewrite decide_True; [done|].
  unfold labels_eq. now rewrite length_map.
Qed.

(** X6: with a nonzero effective size, [group_inefficiency] raises
    [IndexError] exactly when the labelling does not have one label per
    voter column or some winner index lies outside [-m <= i < m]. *)
Theorem X6_index_error_iff_bad_labels_or_winners (cst : NDArray)
    (winners labels : list Z) (bloc : Z) (size : option Z) (s : Z) :
  effective_size cst winners labels bloc size = Ok s →
  s ≠ 0%Z →
  group_inefficiency cst winners labels bloc size = Raise IndexError
  ↔ length labels ≠ ncols cst
    ∨ ¬ Forall (valid_index (length (rows cst))) winners.
Proof.
  intros Hs Hnz.
  destruct (decide (length labels = ncols cst)) as [Hl|Hl].
  - destruct (select_cols_fits cst labels bloc Hl) as [bd Hbd].
    rewrite (group_inefficiency_outcome _ _ _ _ _ s bd) by done.
    destruct (decide (Forall _ winners)) as [Hv|Hv].
    + case_decide; (split; [done | intros [?|?]; done]).
    + split; [now right | done].
  - rewrite (group_inefficiency_mask_mismatch _ _ _ _ _ s) by done.
    split; [now left | done].
Qed.

Lemma X6_witness :
  group_inefficiency line_costs [0; 3]%Z [1; 1; 0; 0]%Z 1 (Some 1%Z)
  = Raise IndexError
  ↔ length [1; 1; 0; 0]%Z ≠ ncols line_costs
    ∨ ¬ Forall (valid_index (length (rows line_costs))) [0; 3]%Z.
Proof.
  apply (X6_index_error_iff_bad_labels_or_winners line_costs [0; 3]%Z
           [1; 1; 0; 0]%Z 1 (Some 1%Z) 1); [reflexivity | discriminate].
Defined.

(** X7: with a nonzero effective size [s], [group_inefficiency] returns a
    score exactly when there is one label per voter column, every winner
    index is valid, and [s] exceeds neither the number of winners nor the
    number of candidates; with labels and indices in order and [s] too
    large it raises the size-validation [ValueError]. *)
Theorem X7_score_iff_inputs_fit (cst : NDArray)
    (winners labels : list Z) (bloc : Z) (size : option Z) (s : Z) :
  effective_size cst winners labels bloc size = Ok s →
  s ≠ 0%Z →
  (is_ok (group_inefficiency cst winners labels bloc size) = true
   ↔ length labels = ncols cst
     ∧ Forall (valid_index (length (rows cst))) winners
     ∧ (s ≤ Z.of_nat (length winners))%Z ∧ (s ≤ len cst)%Z)
  ∧ (group_inefficiency cst winners labels bloc size = Raise ValueError
     ↔ length labels = ncols cst
       ∧ Forall (valid_index (length (rows cst))) winners
       ∧ (Z.of_nat (length winners) < s ∨ len cst < s)%Z).
Proof.
  intros Hs Hnz.
  destruct (decide (length labels = ncols cst)) as [Hl|Hl].
  - destruct (select_cols_fits cst labels bloc Hl) as [bd Hbd].
    rewrite (group_inefficiency_outcome _ _ _ _ _ s bd) by done.
    repeat case_decide; simpl; split; split; try done; try tauto;
      try (intros (_ & _ & ?); lia); try (repeat split; try done; lia).
  - rewrite (group_inefficiency_mask_mismatch _ _ _ _ _ s) by done.
    simpl. split; split; try done; tauto.
Qed.

Lemma X7_witness :
  (is_ok (group_inefficiency line_costs [0; 2]%Z [1; 1; 0; 0]%Z 1 (Some 3%Z))
   = true
   ↔ length [1; 1; 0; 0]%Z = ncols line_costs
     ∧ Forall (valid_index (length (rows line_costs))) [0; 2]%Z
     ∧ (3 ≤ Z.of_nat (length [0; 2]%Z))%Z ∧ (3 ≤ len line_costs)%Z)
  ∧ (group_inefficiency line_costs [0; 2]%Z [1; 1; 0; 0]%Z 1 (Some 3%Z)
     = Raise ValueError
     ↔ length [1; 1; 0; 0]%Z = ncols line_costs
       ∧ Forall (valid_index (length (rows line_costs))) [0; 2]%Z
       ∧ (Z.of_nat (length [0; 2]%Z) < 3 ∨ len line_costs < 3)%Z).
Proof.
  apply (X7_score_iff_inputs_fit line_costs [0; 2]%Z [1; 1; 0; 0]%Z 1
           (Some 3%Z) 3); [reflexivity | discriminate].
Defined.

Lemma Qsign_proper (a b : Q) : a == b → Qsign a = Qsign b.
Proof. intros H. unfold Qsign. now rewrite H. Qed.

Lemma xdiv_proper (a a' b b' : Q) :
  a == a' → b == b' →
  xreal_eqv (xdiv (Finite a) (Finite b)) (xdiv (Finite a') (Finite b')).
Proof.
  intros Ha Hb. simpl.
  destruct (Qeq_bool b 0) eqn:E, (Qeq_bool b' 0) eqn:E'.
  - rewrite (Qsign_proper _ _ Ha). now destruct (Qsign a').
  - apply Qeq_bool_iff in E. apply Qeq_bool_neq in E'. rewrite Hb in E. done.
  - apply Qeq_bool_iff in E'. apply Qeq_bool_neq in E. rewrite Hb in E. done.
  - simpl. apply Qeq_bool_neq in E'. rewrite Ha, Hb. reflexivity.
Qed.

Lemma best_of_perm (l1 l2 : list Q) (s : Z) :
  l1 ≡ₚ l2 →
  Qsum (slice_to (np_sort l1) s) == Qsum (slice_to (np_sort l2) s).
Proof.
  intros Hp. unfold slice_to.
  rewrite !np_sort_length, (Permutation_length Hp).
  destruct (0 <=? s)%Z; now apply smallest_perm.
Qed.

(** X8: the score does not depend on the order in which the winners are
    listed: for two listings that are permutations of one another,
    [group_inefficiency] raises the same exception or returns equal
    scores. *)
Theorem X8_score_ignores_winner_order (cst : NDArray)
    (winners winners' labels : list Z) (bloc : Z) (size : option Z) :
  winners ≡ₚ winners' →
  result_eqv xreal_eqv
    (group_inefficiency cst winners labels bloc size)
    (group_inefficiency cst winners' labels bloc size).
Proof.
  intros Hp.
  assert (Hes : effective_size cst winners' labels bloc size
                = effective_size cst winners labels bloc size).
  { unfold effective_size. now rewrite (Permutation_length Hp). }
  destruct (effective_size cst winners labels bloc size) as [s|e] eqn:Hs.
  2:{ unfold group_inefficiency. rewrite Hes, Hs. done. }
  destruct (decide (s = 0%Z)) as [->|Hnz].
  { unfold group_inefficiency. rewrite Hes, Hs. simpl. reflexivity. }
  destruct (decide (length labels = ncols cst)) as [Hl|Hl].
  2:{ rewrite !(group_inefficiency_mask_mismatch _ _ _ _ _ s) by congruence.
      done. }
  destruct (select_cols_fits cst labels bloc Hl) as [bd Hbd].
  rewrite !(group_inefficiency_outcome _ _ _ _ _ s bd) by congruence.
  rewrite <- (Permutation_length Hp).
  destruct (decide (Forall _ winners)) as [Hv|Hv].
  - rewrite (decide_True (P:=Forall (valid_index (length (rows cst))) winners'))
      by now rewrite <- Hp.
    case_decide; [|done]. apply xdiv_proper; [|reflexivity].
    apply best_of_perm. unfold candidate_costs. simpl.
    now apply fmap_Permutation, fmap_Permutation.
  - rewrite (decide_False (P:=Forall (valid_index (length (rows cst))) winners'))
      by now rewrite <- Hp.
    done.
Qed.

Lemma X8_witness :
  result_eqv xreal_eqv
    (group_inefficiency line_costs [2; 0]%Z [1; 1; 0; 0]%Z 1 None)
    (group_inefficiency line_costs [0; 2]%Z [1; 1; 0; 0]%Z 1 None).
Proof.
  apply (X8_score_ignores_winner_order line_costs [2; 0]%Z [0; 2]%Z).
  apply perm_swap.
Defined.

Lemma row_sel_shift (a : NDArray) (i : Z) :
  row_sel a (i - len a) = row_sel a i.
Proof.
  unfold row_sel, resolve, len.
  destruct (rows a) as [|r rs] eqn:E.
  { now destruct (Z.to_nat _), (Z.to_nat _). }
  do 2 f_equal.
  replace (i - Z.of_nat (length (r :: rs)))%Z
    with (i + (-1) * Z.of_nat (length (r :: rs)))%Z by lia.
  apply Z.mod_add. simpl. lia.
Qed.

(** X9: negative winner indices are not rejected; they count from the last
    candidate: shifting every in-range winner index [i] to [i - m] leaves
    the result of [group_inefficiency] unchanged. *)
Theorem X9_negative_winner_indices_alias (cst : NDArray)
    (winners labels : list Z) (bloc : Z) (size : option Z) :
  Forall (λ i, 0 ≤ i < len cst)%Z winners →
  group_inefficiency cst (map (λ i, i - len cst)%Z winners) labels bloc size
  = group_inefficiency cst winners labels bloc size.
Proof.
  intros Hidx. unfold group_inefficiency.
  assert (Hes : effective_size cst (map (λ i, i - len cst)%Z winners)
                  labels bloc size
                = effective_size cst winners labels bloc size).
  { unfold effective_size. now rewrite length_map. }
  rewrite Hes.
  destruct (effective_size cst winners labels bloc size) as [s|e]; [|done].
  simpl. destruct (negb (s =? 0)%Z); [|done].
  destruct (select_cols cst (labels_eq labels bloc)) as [bd|e] eqn:Hbd;
    [|done].
  simpl. pose proof (select_cols_len _ _ _ Hbd) as Hlen.
  assert (Hrows : Z.of_nat (length (rows bd)) = len cst) by exact Hlen.
  rewrite !take_rows_valid.
  - do 3 f_equal. rewrite <- list_fmap_compose. apply list_fmap_ext.
    intros k i _. simpl. rewrite <- Hlen. apply row_sel_shift.
  - eapply Forall_impl; [exact Hidx|]. unfold valid_index. intros i Hi. lia.
  - apply Forall_fmap. eapply Forall_impl; [exact Hidx|].
    unfold valid_index. intros i Hi. simpl. lia.
Qed.

Lemma X9_witness :
  group_inefficiency line_costs
    (map (λ i, i - len line_costs)%Z [0; 2]%Z) [1; 1; 0; 0]%Z 1 None
  = group_inefficiency line_costs [0; 2]%Z [1; 1; 0; 0]%Z 1 None.
Proof.
  apply (X9_negative_winner_indices_alias line_costs [0; 2]%Z).
  repeat constructor; discriminate.
Defined.

(** X10: on an array with no voter column and a labelling in which no
    voter carries the bloc label, proportional sizing divides 0 by 0:
    [group_inefficiency] with [size = None] raises [ValueError] (from
    [int(nan)]) instead of returning the sentinel 0. *)
Theorem X10_no_voter_column_raises (cst : NDArray) (winners labels : list Z)
    (bloc : Z) :
  ncols cst = 0%nat →
  count_true (labels_eq labels bloc) = 0%nat →
  group_inefficiency cst winners labels bloc None = Raise ValueError.
Proof.
  intros Hn Hc. unfold group_inefficiency, effective_size, shape.
  rewrite Hn, Hc. reflexivity.
Qed.

Lemma X10_witness :
  group_inefficiency (mkArray 0 [[]; []]) [0; 1]%Z [] 1 None
  = Raise ValueError.
Proof.
  apply (X10_no_voter_column_raises (mkArray 0 [[]; []]) [0; 1]%Z [] 1);
    reflexivity.
Defined.

End Outcomes.

(** ** Change of unit *)

Section Scaling.
Local Open Scope Q_scope.

Lemma submseteq_transfer {A B} (P : A → B → Prop) (l : list A) (l' : list B) :
  Forall2 P l l' →
  ∀ sel, sel ⊆+ l →
  ∃ sel' sel0, sel' ⊆+ l' ∧ sel0 ≡ₚ sel ∧ Forall2 P sel0 sel'.
Proof.
  induction 1 as [|x y l l' Hxy _ IH]; intros sel Hsel.
  - apply submseteq_nil_r in Hsel as ->. exists [], []. repeat constructor.
  - apply submseteq_cons_r in Hsel as [Hsel | (k & Hp & Hk)].
    + destruct (IH _ Hsel) as (sel' & sel0 & H1 & H2 & H3).
      exists sel', sel0. split; [now apply submseteq_cons | done].
    + destruct (IH _ Hk) as (sel' & sel0 & H1 & H2 & H3).
      exists (y :: sel'), (x :: sel0). split; [now apply submseteq_skip|].
      split; [now rewrite Hp, H2 | now constructor].
Qed.

Lemma Qsum_scaled (c : Q) (a b : list Q) :
  Forall2 (λ x y, y == c * x) a b → Qsum b == c * Qsum a.
Proof.
  induction 1 as [|x y a b Hxy _ IH]; simpl; [ring|]. rewrite Hxy, IH. ring.
Qed.

Lemma smallest_scaled_le (c : Q) (l l' : list Q) (n : nat) :
  0 <= c → (n ≤ length l)%nat →
  Forall2 (λ x y, y == c * x) l l' →
  Qsum (take n (np_sort l')) <= c * Qsum (take n (np_sort l)).
Proof.
  intros Hc Hn HP.
  destruct (submseteq_transfer _ _ _ HP (take n (np_sort l))
              (take_np_sort_submseteq n l)) as (sel' & sel0 & H1 & H2 & H3).
  assert (Hlen : length sel' = n).
  { rewrite <- (Forall2_length _ _ _ H3), (Permutation_length H2).
    rewrite length_take, np_sort_length. lia. }
  rewrite <- (Qsum_perm _ _ H2), <- (Qsum_scaled _ _ _ H3), <- Hlen at 1.
  now apply smallest_minimal.
Qed.

Lemma smallest_scaled_ge (c : Q) (l l' : list Q) (n : nat) :
  0 <= c → (n ≤ length l)%nat →
  Forall2 (λ x y, y == c * x) l l' →
  c * Qsum (take n (np_sort l)) <= Qsum (take n (np_sort l')).
Proof.
  intros Hc Hn HP. pose proof (Forall2_length _ _ _ HP) as Hll.
  apply Forall2_flip in HP.
  destruct (submseteq_transfer _ _ _ HP (take n (np_sort l'))
              (take_np_sort_submseteq n l')) as (sel & sel0 & H1 & H2 & H3).
  apply Forall2_flip in H3.
  assert (Hlen : length sel = n).
  { rewrite (Forall2_length _ _ _ H3), (Permutation_length H2).
    rewrite length_take, np_sort_length. lia. }
  rewrite <- (Qsum_perm _ _ H2), (Qsum_scaled _ _ _ H3).
  pose proof (smallest_minimal l sel H1) as Hmin. rewrite Hlen in Hmin.
  nra.
Qed.

Lemma best_of_scaled (c : Q) (l l' : list Q) (s : Z) :
  0 <= c →
  Forall2 (λ x y, y == c * x) l l' →
  Qsum (slice_to (np_sort l') s) == c * Qsum (slice_to (np_sort l) s).
Proof.
  intros Hc HP. pose proof (Forall2_length _ _ _ HP) as Hll.
  assert (Hn : ∀ n, Qsum (take n (np_sort l')) == c * Qsum (take n (np_sort l))).
  { intros n. destruct (le_lt_dec n (length l)) as [Hn|Hn].
    - apply Qle_antisym;
        [now apply smallest_scaled_le | now apply smallest_scaled_ge].
    - rewrite !take_ge by (rewrite np_sort_length; lia).
      rewrite !(Qsum_perm _ _ (np_sort_perm _)). now apply Qsum_scaled. }
  unfold slice_to. rewrite !np_sort_length, <- Hll.
  destruct (0 <=? s)%Z; apply Hn.
Qed.

Lemma Qsum_map_mult (c : Q) (r : list Q) : Qsum (map (Qmult c) r) == c * Qsum r.
Proof. induction r as [|x r IH]; simpl; [|rewrite IH]; ring. Qed.

Lemma candidate_costs_scaled (c : Q) (rs : list (list Q)) :
  Forall2 (λ x y, y == c * x) (map Qsum rs) (map Qsum (map (map (Qmult c)) rs)).
Proof.
  induction rs as [|r rs IH]; simpl; constructor; [|done].
  apply Qsum_map_mult.
Qed.

Lemma select_map {A B} (f : A → B) (mask : list bool) (r : list A) :
  select mask (map f r) = map f (select mask r).
Proof.
  revert r. induction mask as [|b mask IH]; intros [|x r]; simpl; try done.
  destruct b; simpl; now rewrite IH.
Qed.

Lemma select_cols_scaled (c : Q) (a bd : NDArray) (mask : list bool) :
  select_cols a mask = Ok bd →
  select_cols (scale_costs c a) mask = Ok (scale_costs c bd).
Proof.
  unfold select_cols, scale_costs. simpl. case_decide; [|done].
  intros [= <-]. simpl. do 2 f_equal. rewrite !map_map.
  apply map_ext. intros r. apply select_map.
Qed.

Lemma row_sel_scaled (c : Q) (a : NDArray) (i : Z) :
  row_sel (scale_costs c a) i = map (Qmult c) (row_sel a i).
Proof.
  unfold row_sel, scale_costs. simpl. rewrite length_map.
  now rewrite <- (map_nth (map (Qmult c))).
Qed.

Lemma winner_costs_scaled (c : Q) (bd : NDArray) (winners : list Z) :
  Forall2 (λ x y, y == c * x)
    (map Qsum (row_sel bd <$> winners))
    (map Qsum (row_sel (scale_costs c bd) <$> winners)).
Proof.
  induction winners as [|i winners IH]; simpl; constructor; [|done].
  rewrite row_sel_scaled. apply Qsum_map_mult.
Qed.

Lemma Qsign_scaled (c a a' : Q) : 0 < c → a' == c * a → Qsign a' = Qsign a.
Proof.
  intros Hc Ha. unfold Qsign. rewrite Ha.
  destruct (Qcompare_spec a 0) as [H|H|H].
  - apply Qeq_alt. rewrite H. ring.
  - apply Qlt_alt. apply Qlt_le_trans with (c * 0); [now apply Qmult_lt_l|].
    rewrite Qmult_0_r. apply Qle_refl.
  - apply Qgt_alt. now apply Qmult_lt_0_compat.
Qed.

Lemma xdiv_scaled (c a a' b b' : Q) :
  0 < c → a' == c * a → b' == c * b →
  xreal_eqv (xdiv (Finite a') (Finite b')) (xdiv (Finite a) (Finite b)).
Proof.
  intros Hc Ha Hb. simpl.
  destruct (Qeq_bool b' 0) eqn:E', (Qeq_bool b 0) eqn:E.
  - rewrite (Qsign_scaled c a a') by done. now destruct (Qsign a).
  - apply Qeq_bool_iff in E'. apply Qeq_bool_neq in E.
    destruct E. rewrite Hb in E'.
    destruct (Qmult_integral _ _ E') as [H0|H0]; [lra | done].
  - apply Qeq_bool_iff in E. apply Qeq_bool_neq in E'.
    destruct E'. rewrite Hb, E. ring.
  - simpl. apply Qeq_bool_neq in E. rewrite Ha, Hb. field. split; lra.
Qed.

(** X11: the score does not depend on the unit of distance: multiplying
    every entry of the cost array by the same [c > 0] leaves the outcome
    of [group_inefficiency] unchanged, the same exception or an equal
    score. *)
Theorem X11_score_is_scale_invariant (c : Q) (cst : NDArray)
    (winners labels : list Z) (bloc : Z) (size : option Z) :
  0 < c →
  result_eqv xreal_eqv
    (group_inefficiency (scale_costs c cst) winners labels bloc size)
    (group_inefficiency cst winners labels bloc size).
Proof.
  intros Hc.
  assert (Hes : effective_size (scale_costs c cst) winners labels bloc size
                = effective_size cst winners labels bloc size) by done.
  destruct (effective_size cst winners labels bloc size) as [s|e] eqn:Hs.
  2:{ unfold group_inefficiency. rewrite Hes, Hs. done. }
  destruct (decide (s = 0%Z)) as [->|Hnz].
  { unfold group_inefficiency. rewrite Hes, Hs. simpl. reflexivity. }
  destruct (decide (length labels = ncols cst)) as [Hl|Hl].
  2:{ rewrite !(group_inefficiency_mask_mismatch _ _ _ _ _ s) by done.
      done. }
  destruct (select_cols_fits cst labels bloc Hl) as [bd Hbd].
  rewrite (group_inefficiency_outcome _ _ _ _ _ s (scale_costs c bd))
    by (try done; now apply select_cols_scaled).
  rewrite (group_inefficiency_outcome cst _ _ _ _ s bd) by done.
  assert (Hlen : len (scale_costs c cst) = len cst).
  { unfold len, scale_costs. simpl. now rewrite length_map. }
  assert (Hrows : length (rows (scale_costs c cst)) = length (rows cst)).
  { unfold scale_costs. simpl. now rewrite length_map. }
  rewrite Hlen, Hrows.
  destruct (decide (Forall _ winners)) as [Hv|Hv]; [|done].
  case_decide; [|done].
  apply (xdiv_scaled c); [done| |].
  - apply best_of_scaled; [lra|]. apply winner_costs_scaled.
  - apply best_of_scaled; [lra|]. apply candidate_costs_scaled.
Qed.

Lemma X11_witness :
  result_eqv xreal_eqv
    (group_inefficiency (scale_costs (1 # 1000) line_costs) [1; 2]%Z
       [1; 1; 0; 0]%Z 1 None)
    (group_inefficiency line_costs [1; 2]%Z [1; 1; 0; 0]%Z 1 None).
Proof.
  apply (X11_score_is_scale_invariant (1 # 1000) line_costs). reflexivity.
Defined.

End Scaling.

(** ** Entries of the constructed cost arrays *)

Section Entries.
Local Open Scope Q_scope.

(** X12: when [cost_array] returns, its entry in row [i] and column [j]
    is the value [distance_fn] returned for voter [j] and candidate [i],
    in this argument order. *)
Theorem X12_cost_array_entries (distance_fn : list Q → list Q → result Q)
    (V C M : NDArray) (i j : nat) (v c : list Q) :
  cost_array distance_fn V C = Ok M →
  rows C !! i = Some c →
  rows V !! j = Some v →
  ∃ r q, rows M !! i = Some r ∧ r !! j = Some q ∧ distance_fn v c = Ok q.
Proof.
  unfold cost_array. intros HM Hc Hv.
  destruct (mapR (λ c, mapR (λ v, distance_fn v c) (rows V)) (rows C))
    as [dists|e] eqn:Hd; simpl in HM; [|done].
  injection HM as <-. simpl.
  apply mapR_Ok_inv in Hd.
  destruct (Forall2_lookup_l _ _ _ _ _ Hd Hc) as (r & Hr & Hrow).
  apply mapR_Ok_inv in Hrow.
  destruct (Forall2_lookup_l _ _ _ _ _ Hrow Hv) as (q & Hq & Hdist).
  now exists r, q.
Qed.

Lemma X12_witness :
  ∃ r q,
    rows (mkArray 2 [[0; 10]; [5; 5]; [10; 0]]) !! 1%nat = Some r
    ∧ r !! 0%nat = Some q
    ∧ taxicab [0; 0] [5; 0] = Ok q.
Proof.
  apply (X12_cost_array_entries taxicab (mkArray 2 [[0; 0]; [10; 0]])
           (mkArray 2 [[0; 0]; [5; 0]; [10; 0]])
           (mkArray 2 [[0; 10]; [5; 5]; [10; 0]]) 1 0 [0; 0] [5; 0]);
    reflexivity.
Defined.

(** X13: [euclidean_cost_array] raises, and then [ValueError], exactly
    when the two coordinate dimensions differ and neither is 1; in every
    other case, empty voter or candidate arrays included, it returns an
    array with one row per candidate and one column per voter. *)
Theorem X13_euclidean_cost_array_raises_iff_not_broadcastable
    (sqrt : Q → Q) (V C : NDArray) :
  (euclidean_cost_array sqrt V C = Raise ValueError
   ↔ ncols V ≠ ncols C ∧ ncols V ≠ 1%nat ∧ ncols C ≠ 1%nat)
  ∧ (ncols V = ncols C ∨ ncols V = 1%nat ∨ ncols C = 1%nat →
     ∃ M, euclidean_cost_array sqrt V C = Ok M
          ∧ len M = len C ∧ ncols M = length (rows V) ∧ wf_array M)
  ∧ ∀ e, euclidean_cost_array sqrt V C = Raise e → e = ValueError.
Proof.
  unfold euclidean_cost_array, broadcastable.
  repeat case_bool_decide; simpl; (split; [|split]);
    try (split; [done | intros (? & ? & ?); done]);
    try (intros; congruence); try tauto;
    try (intros _; eexists; split; [done|];
         unfold len, wf_array; simpl; rewrite !length_map;
         repeat split; apply Forall_forall; intros r Hr;
         apply list_elem_of_fmap in Hr as (r' & -> & Hr');
         apply list_elem_of_fmap in Hr' as (c & -> & _);
         now rewrite !length_map).
Qed.

Lemma X13_witness :
  ∃ M, euclidean_cost_array (λ q, q) (mkArray 1 [[3]; [4]])
         (mkArray 2 [[0; 4]]) = Ok M
       ∧ len M = len (mkArray 2 [[0; 4]])
       ∧ ncols M = length (rows (mkArray 1 [[3]; [4]]))
       ∧ wf_array M.
Proof.
  apply (X13_euclidean_cost_array_raises_iff_not_broadcastable (λ q, q)
           (mkArray 1 [[3]; [4]]) (mkArray 2 [[0; 4]])).
  right. left. reflexivity.
Defined.

(** X14: when voters and candidates have the same number of coordinates,
    the entry of [euclidean_cost_array] in row [i] and column [j] is the
    square root of the sum of the squared coordinate differences between
    voter [j] and candidate [i]. *)
Theorem X14_euclidean_cost_array_entries (sqrt : Q → Q) (V C M : NDArray)
    (i j : nat) (v c : list Q) :
  euclidean_cost_array sqrt V C = Ok M →
  rows C !! i = Some c →
  rows V !! j = Some v →
  length v = length c →
  ∃ r, rows M !! i = Some r
       ∧ r !! j
         = Some (sqrt (Qsum (map (λ x, x ^ 2) (zip_with Qminus v c)))).
Proof.
  unfold euclidean_cost_array. intros HM Hc Hv Hlen.
  destruct (broadcastable (ncols V) (ncols C)); [|done].
  injection HM as <-. simpl.
  eexists. split.
  - rewrite !list_lookup_fmap, Hc. simpl. reflexivity.
  - rewrite !list_lookup_fmap, Hv. simpl. unfold norm2, sub_broadcast.
    now rewrite decide_True.
Qed.

Lemma X14_witness :
  ∃ r, rows (mkArray 2 [[0; 100]; [25; 25]]) !! 1%nat = Some r
       ∧ r !! 0%nat
         = Some ((λ q, q) (Qsum (map (λ x, x ^ 2)
                                   (zip_with Qminus [0; 0] [5; 0])))).
Proof.
  apply (X14_euclidean_cost_array_entries (λ q, q)
           (mkArray 2 [[0; 0]; [10; 0]]) (mkArray 2 [[0; 0]; [5; 0]])
           (mkArray 2 [[0; 100]; [25; 25]]) 1 0 [0; 0] [5; 0]);
    reflexivity.
Defined.

End Entries.

(** ** The labelling of a drawn bloc *)

Section Marking.
Local Open Scope Z_scope.

Lemma marks_length (n : nat) (idx : list nat) : length (marks n idx) = n.
Proof.
  induction idx as [|i idx IH]; simpl.
  - apply length_replicate.
  - now rewrite length_insert.
Qed.

Lemma marks_lookup (n : nat) (idx : list nat) (j : nat) :
  (j < n)%nat →
  marks n idx !! j = Some (if bool_decide (j ∈ idx) then 1 else 0).
Proof.
  intros Hj. induction idx as [|i idx IH]; simpl.
  - now rewrite lookup_replicate_2.
  - destruct (decide (i = j)) as [->|Hne].
    + rewrite list_lookup_insert_eq by now rewrite marks_length.
      rewrite bool_decide_eq_true_2; [done | apply list_elem_of_here].
    + rewrite list_lookup_insert_ne by done. rewrite IH.
      rewrite (bool_decide_ext (j ∈ i :: idx) (j ∈ idx)); [done|].
      rewrite elem_of_cons. split; [intros [?|?]; [congruence | done]|].
      now right.
Qed.

Lemma count_true_insert (mask : list bool) (i : nat) :
  mask !! i = Some false →
  count_true (<[i:=true]> mask) = S (count_true mask).
Proof.
  unfold count_true. revert i.
  induction mask as [|b mask IH]; intros [|i] Hi; simpl in Hi; try done.
  - injection Hi as ->.
    change (<[0%nat:=true]> (false :: mask)) with (true :: mask).
    rewrite !filter_cons, decide_True, decide_False by done. done.
  - change (<[S i:=true]> (b :: mask)) with (b :: <[i:=true]> mask).
    rewrite !filter_cons. destruct (decide (b = true)); simpl;
      now rewrite IH.
Qed.

Lemma marks_count (n : nat) (idx : list nat) :
  NoDup idx → Forall (λ j, j < n)%nat idx →
  count_true (labels_eq (marks n idx) 1) = length idx.
Proof.
  intros Hnd Hlt. induction Hnd as [|i idx Hi Hnd IH]; simpl.
  - clear Hlt. unfold labels_eq, count_true. induction n; simpl; [done|].
    now rewrite filter_cons, decide_False.
  - apply Forall_cons in Hlt as [Hin Hlt].
    unfold labels_eq in *.
    change (map (λ l : Z, l =? 1)) with (fmap (M:=list) (λ l : Z, l =? 1)).
    rewrite list_fmap_insert. simpl. rewrite count_true_insert.
    + f_equal. now apply IH.
    + rewrite list_lookup_fmap, marks_lookup by done.
      now rewrite bool_decide_eq_false_2.
Qed.

Lemma mark_bloc_valid (n : nat) (bloc : list Z) :
  Forall (valid_index n) bloc →
  mark_bloc n bloc = Ok (marks n (resolve n <$> bloc)).
Proof.
  intros Hv. unfold mark_bloc.
  rewrite (mapR_total _ (resolve n)); [done|].
  eapply Forall_impl; [exact Hv|]. intros i Hi.
  now destruct (norm_index_valid _ _ Hi).
Qed.

Lemma mark_bloc_invalid (n : nat) (bloc : list Z) :
  ¬ Forall (valid_index n) bloc → mark_bloc n bloc = Raise IndexError.
Proof.
  intros Hv. unfold mark_bloc.
  enough (mapR (norm_index n) bloc = Raise IndexError) as -> by done.
  induction bloc as [|i bloc IH]; [now destruct Hv|]. simpl.
  destruct (decide (valid_index n i)) as [Hi|Hi].
  - rewrite IH; [|intros H; apply Hv; now constructor].
    now destruct (norm_index_valid _ _ Hi) as [-> _].
  - now rewrite norm_index_invalid.
Qed.

(** X15: for a bloc of valid voter indices, the labelling built by
    [labels = np.zeros(n); labels[random_bloc] = 1] has one label per
    voter, the label 1 exactly at the positions the drawn indices resolve
    to and 0 elsewhere; when the drawn positions are distinct, the bloc
    that [group_inefficiency] counts has as many voters as were drawn. *)
Theorem X15_mark_bloc_labels_the_drawn_voters (n : nat) (bloc : list Z) :
  Forall (valid_index n) bloc →
  ∃ labels,
    mark_bloc n bloc = Ok labels
    ∧ length labels = n
    ∧ (∀ j, (j < n)%nat →
         labels !! j
         = Some (if bool_decide (j ∈ resolve n <$> bloc) then 1 else 0))
    ∧ (NoDup (resolve n <$> bloc) →
       count_true (labels_eq labels 1) = length bloc).
Proof.
  intros Hv. exists (marks n (resolve n <$> bloc)).
  split; [now apply mark_bloc_valid|].
  split; [apply marks_length|].
  split; [intros j Hj; now apply marks_lookup|].
  intros Hnd. rewrite marks_count, length_fmap; try done.
  apply Forall_fmap. eapply Forall_impl; [exact Hv|].
  intros i Hi. now destruct (norm_index_valid _ _ Hi).
Qed.

Lemma X15_witness :
  ∃ labels,
    mark_bloc 4 [3; -4] = Ok labels
    ∧ length labels = 4%nat
    ∧ (∀ j, (j < 4)%nat →
         labels !! j
         = Some (if bool_decide (j ∈ resolve 4 <$> [3; -4]) then 1 else 0))
    ∧ (NoDup (resolve 4 <$> [3; -4]) →
       count_true (labels_eq labels 1) = length [3; -4]).
Proof.
  apply (X15_mark_bloc_labels_the_drawn_voters 4 [3; -4]).
  repeat constructor; discriminate.
Defined.

Section WithSampler.
Context {rng_state : Type}.
Variable sampler :
  Z → Z → Z → list xreal → rng_state → result (list Z) * rng_state.

(** X16: when the sampler draws distinct valid voter indices,
    [random_group_inefficiency] scores the bloc with the proportional size
    [int(b / n * k)] for the number [b] of drawn voters, whatever [t] was
    asked for: the outcome is that of [group_inefficiency] on the bloc's
    labelling, whose effective size is [proportional_size b n k]. *)
Theorem X16_sampled_bloc_is_sized_by_its_cardinality (cost_arr : NDArray)
    (winner_indices : list Z) (t : Z) (weights : option (list xreal))
    (w : list xreal) (g g' : rng_state) (bloc : list Z) :
  sampling_weights cost_arr winner_indices t weights = Ok w →
  sampler (Z.of_nat (ncols cost_arr)) (Z.of_nat (length winner_indices)) t w g
  = (Ok bloc, g') →
  Forall (valid_index (ncols cost_arr)) bloc →
  NoDup (resolve (ncols cost_arr) <$> bloc) →
  ∃ labels,
    mark_bloc (ncols cost_arr) bloc = Ok labels
    ∧ effective_size cost_arr winner_indices labels 1 None
      = proportional_size (Z.of_nat (length bloc))
          (Z.of_nat (ncols cost_arr)) (Z.of_nat (length winner_indices))
    ∧ random_group_inefficiency sampler cost_arr winner_indices t weights g
      = (score ← group_inefficiency cost_arr winner_indices labels 1 None ;
         Ok (score, bloc), g').
Proof.
  intros Hw Hdraw Hv Hnd.
  pose proof (mark_bloc_valid _ _ Hv) as Hm.
  assert (Hc : count_true (labels_eq
                 (marks (ncols cost_arr) (resolve (ncols cost_arr) <$> bloc)) 1)
               = length bloc).
  { rewrite marks_count, length_fmap; try done.
    apply Forall_fmap. eapply Forall_impl; [exact Hv|].
    intros i Hi. now destruct (norm_index_valid _ _ Hi). }
  exists (marks (ncols cost_arr) (resolve (ncols cost_arr) <$> bloc)).
  split; [done|]. split.
  - unfold effective_size, shape. now rewrite Hc.
  - unfold random_group_inefficiency, shape. rewrite Hw, Hdraw. simpl.
    now rewrite Hm.
Qed.

(** X17: when the sampler draws an index outside [-n <= i < n],
    [random_group_inefficiency] raises [IndexError] while labelling the
    bloc, and leaves the generator in the state the sampler produced. *)
Theorem X17_out_of_range_draw_raises (cost_arr : NDArray)
    (winner_indices : list Z) (t : Z) (weights : option (list xreal))
    (w : list xreal) (g g' : rng_state) (bloc : list Z) :
  sampling_weights cost_arr winner_indices t weights = Ok w →
  sampler (Z.of_nat (ncols cost_arr)) (Z.of_nat (length winner_indices)) t w g
  = (Ok bloc, g') →
  ¬ Forall (valid_index (ncols cost_arr)) bloc →
  random_group_inefficiency sampler cost_arr winner_indices t weights g
  = (Raise IndexError, g').
Proof.
  intros Hw Hdraw Hv.
  unfold random_group_inefficiency, shape. rewrite Hw, Hdraw. simpl.
  now rewrite mark_bloc_invalid.
Qed.

(** X18: with [weights = None], a winner index outside [-m <= i < m]
    makes [random_group_inefficiency] raise [IndexError] while it computes
    the greedy weights: nothing is drawn and the generator state is
    untouched. *)
Theorem X18_invalid_winner_raises_before_drawing (cost_arr : NDArray)
    (winner_indices : list Z) (t : Z) (g : rng_state) :
  ¬ Forall (valid_index (length (rows cost_arr))) winner_indices →
  random_group_inefficiency sampler cost_arr winner_indices t None g
  = (Raise IndexError, g).
Proof.
  intros Hv. unfold random_group_inefficiency, sampling_weights, shape.
  now rewrite take_rows_invalid.
Qed.

End WithSampler.
End Marking.

Lemma X16_witness :
  ∃ labels,
    mark_bloc (ncols line_costs) [2; 0]%Z = Ok labels
    ∧ effective_size line_costs [1; 2]%Z labels 1 None
      = proportional_size (Z.of_nat (length [2; 0]%Z))
          (Z.of_nat (ncols line_costs)) (Z.of_nat (length [1; 2]%Z))
    ∧ random_group_inefficiency lcg_voter_bloc line_costs [1; 2]%Z 1
        (Some [Finite 1; Finite 1; Finite 1; Finite 1]) 1%Z
      = (score ← group_inefficiency line_costs [1; 2]%Z labels 1 None ;
         Ok (score, [2; 0]%Z), 377401575%Z).
Proof.
  apply (X16_sampled_bloc_is_sized_by_its_cardinality lcg_voter_bloc
           line_costs [1; 2]%Z 1
           (Some [Finite 1; Finite 1; Finite 1; Finite 1])
           [Finite 1; Finite 1; Finite 1; Finite 1] 1%Z 377401575%Z
           [2; 0]%Z).
  - reflexivity.
  - vm_compute. reflexivity.
  - repeat constructor; discriminate.
  - apply (bool_decide_unpack _). vm_compute. exact I.
Defined.

Lemma X17_witness :
  random_group_inefficiency (λ _ _ _ _ (g : Z), (Ok [4%Z], (g + 1)%Z))
    line_costs [1; 2]%Z 1 (Some []) 0%Z
  = (Raise IndexError, 1%Z).
Proof.
  apply (X17_out_of_range_draw_raises
           (λ _ _ _ _ (g : Z), (Ok [4%Z], (g + 1)%Z))
           line_costs [1; 2]%Z 1 (Some []) [] 0%Z 1%Z [4%Z]).
  - reflexivity.
  - reflexivity.
  - intros H. apply Forall_cons in H as [[_ H] _].
    vm_compute in H. discriminate H.
Defined.

Lemma X18_witness :
  random_group_inefficiency lcg_voter_bloc line_costs [1; 3]%Z 1 None 1%Z
  = (Raise IndexError, 1%Z).
Proof.
  apply (X18_invalid_winner_raises_before_drawing lcg_voter_bloc
           line_costs [1; 3]%Z 1 1%Z).
  intros H. apply Forall_cons in H as [_ H].
  apply Forall_cons in H as [[_ H] _]. vm_compute in H. discriminate H.
Defined.

(** ** The greedy weights *)

Section Weights.
Local Open Scope Q_scope.

Lemma Qsum_pos (l : list Q) : Forall (λ x, 0 < x) l → l ≠ [] → 0 < Qsum l.
Proof.
  intros Hl Hne. destruct Hl as [|x l Hx Hl]; [done|].
  change (0 < x + Qsum l).
  assert (0 <= Qsum l); [|lra].
  apply Qsum_nonneg. eapply Forall_impl; [exact Hl|].
  intros y Hy. simpl in Hy. lra.
Qed.

Lemma xsum_finite (qs : list Q) : xsum (Finite <$> qs) = Finite (Qsum qs).
Proof.
  unfold xsum, Qsum. induction qs as [|q qs IH]; [done|].
  change (xadd (Finite q) (foldr xadd (Finite 0) (Finite <$> qs))
          = Finite (q + foldr Qplus 0 qs)).
  now rewrite IH.
Qed.

Lemma zip_with_map_same {A B C D} (f : B → C → D) (g : A → B) (h : A → C)
    (l : list A) :
  zip_with f (map g l) (map h l) = map (λ x, f (g x) (h x)) l.
Proof. induction l as [|x l IH]; simpl; [done|]. now rewrite IH. Qed.

Lemma map_ext_Forall {A B} (f g : A → B) (l : list A) :
  Forall (λ x, f x = g x) l → map f l = map g l.
Proof. induction 1 as [|x l Hx _ IH]; simpl; [done|]. now rewrite Hx, IH. Qed.

Lemma Qsum_map_div (c : Q) (l : list Q) :
  ¬ c == 0 → Qsum (map (λ q, q / c) l) == Qsum l / c.
Proof.
  intros Hc. induction l as [|x l IH]; simpl; [|rewrite IH]; now field.
Qed.

(** The sum of the [t] smallest entries of a column is positive when all
    the entries are, there is a row, and [t >= 1]. *)
Lemma best_in_column_pos (a : NDArray) (t : Z) (j : nat) :
  wf_array a → positive_array a → rows a ≠ [] → (1 ≤ t)%Z →
  (j < ncols a)%nat →
  0 < Qsum (slice_to (np_sort (column a j)) t).
Proof.
  intros Hwf Hpos Hne Ht Hj.
  assert (Hcol : Forall (λ x, 0 < x) (column a j)).
  { unfold column. apply Forall_fmap, Forall_forall. intros r Hr. simpl.
    unfold wf_array in Hwf. rewrite Forall_forall in Hwf.
    unfold positive_array in Hpos. rewrite Forall_forall in Hpos.
    specialize (Hwf r Hr). specialize (Hpos r Hr). simpl in Hwf.
    rewrite Forall_forall in Hpos. apply Hpos.
    apply list_elem_of_In, nth_In. lia. }
  assert (Hlen : length (np_sort (column a j)) ≠ 0%nat).
  { rewrite np_sort_length. unfold column. rewrite length_map.
    now destruct (rows a). }
  rewrite slice_to_nonneg by lia. apply Qsum_pos.
  - apply Forall_take. now rewrite np_sort_perm.
  - destruct (np_sort (column a j)); [done|].
    destruct (Z.to_nat t) eqn:E; [lia | done].
Qed.

(** X19: on a well-formed cost array with positive entries and at least
    one voter, with a non-empty list of valid winner indices and [t >= 1],
    the greedy weights computed when [weights = None] are a probability
    distribution over the voters: one finite positive weight per voter,
    summing to 1. *)
Theorem X19_greedy_weights_are_a_distribution (cost_arr : NDArray)
    (winner_indices : list Z) (t : Z) :
  wf_array cost_arr → positive_array cost_arr →
  (0 < ncols cost_arr)%nat →
  winner_indices ≠ [] →
  Forall (valid_index (length (rows cost_arr))) winner_indices →
  (1 ≤ t)%Z →
  ∃ qs : list Q,
    sampling_weights cost_arr winner_indices t None = Ok (Finite <$> qs)
    ∧ length qs = ncols cost_arr
    ∧ Forall (λ q, 0 < q) qs
    ∧ Qsum qs == 1.
Proof.
  intros Hwf Hpos Hn Hne Hv Ht.
  unfold sampling_weights. rewrite take_rows_valid by done. simpl.
  set (w := mkArray (ncols cost_arr) (row_sel cost_arr <$> winner_indices)).
  assert (Hin : ∀ r, r ∈ rows w → r ∈ rows cost_arr).
  { intros r Hr. apply list_elem_of_fmap in Hr as (i & -> & Hi).
    rewrite Forall_forall in Hv. now apply row_sel_elem_of, Hv. }
  assert (Hwfw : wf_array w).
  { apply Forall_forall. intros r Hr. unfold wf_array in Hwf.
    rewrite Forall_forall in Hwf. now apply Hwf, Hin. }
  assert (Hposw : positive_array w).
  { apply Forall_forall. intros r Hr. unfold positive_array in Hpos.
    rewrite Forall_forall in Hpos. now apply Hpos, Hin. }
  assert (Hnew : rows w ≠ []).
  { unfold w. simpl. now destruct winner_indices. }
  assert (Hnec : rows cost_arr ≠ []).
  { destruct winner_indices as [|i ?]; [done|].
    apply Forall_cons in Hv as [Hi _]. unfold valid_index in Hi.
    destruct (rows cost_arr); [simpl in Hi; lia | done]. }
  set (W := λ j, Qsum (slice_to (np_sort (column w j)) t)).
  set (A := λ j, Qsum (slice_to (np_sort (column cost_arr j)) t)).
  set (n := ncols cost_arr).
  assert (HW : ∀ j, (j < n)%nat → 0 < W j).
  { intros j Hj. now apply best_in_column_pos. }
  assert (HA : ∀ j, (j < n)%nat → 0 < A j).
  { intros j Hj. now apply best_in_column_pos. }
  unfold best_per_voter. fold W A. change (ncols w) with n. fold n.
  rewrite zip_with_map_same.
  set (gs := map (λ j, W j / A j) (seq 0 n)).
  assert (Hgs : map (λ j, if Qeq_bool (A j) 0 then xinf_of (Qsign (W j))
                          else Finite (W j / A j)) (seq 0 n)
                = Finite <$> gs).
  { unfold gs. change (Finite <$> map (λ j, W j / A j) (seq 0 n))
      with (map Finite (map (λ j, W j / A j) (seq 0 n))).
    rewrite map_map. apply map_ext_Forall, Forall_forall.
    intros j Hj. apply elem_of_seq in Hj. apply (xdiv_finite (W j) (A j)).
    specialize (HA j ltac:(lia)). lra. }
  rewrite Hgs, xsum_finite.
  assert (Hgpos : Forall (λ q, 0 < q) gs).
  { unfold gs. apply Forall_fmap, Forall_forall. intros j Hj. simpl.
    apply elem_of_seq in Hj.
    apply Qlt_shift_div_l; [apply HA; lia|].
    specialize (HW j ltac:(lia)). lra. }
  assert (Htot : 0 < Qsum gs).
  { apply Qsum_pos; [done|]. unfold gs, n in *.
    destruct (ncols cost_arr); [lia | done]. }
  exists (map (λ q, q / Qsum gs) gs). repeat split.
  - f_equal.
    change (Finite <$> map (λ q, q / Qsum gs) gs)
      with (map Finite (map (λ q, q / Qsum gs) gs)).
    change (Finite <$> gs) with (map Finite gs). rewrite !map_map.
    apply map_ext. intros q. apply xdiv_finite. lra.
  - unfold gs. now rewrite !length_map, length_seq.
  - apply Forall_fmap. eapply Forall_impl; [exact Hgpos|].
    intros q Hq. simpl in *. apply Qlt_shift_div_l; [done | lra].
  - rewrite Qsum_map_div by lra. field. lra.
Qed.

Lemma X19_witness :
  ∃ qs : list Q,
    sampling_weights line_costs [0; 1]%Z 1 None = Ok (Finite <$> qs)
    ∧ length qs = ncols line_costs
    ∧ Forall (λ q, 0 < q) qs
    ∧ Qsum qs == 1.
Proof.
  apply (X19_greedy_weights_are_a_distribution line_costs [0; 1]%Z 1).
  - repeat constructor.
  - repeat constructor.
  - simpl. lia.
  - discriminate.
  - repeat constructor; discriminate.
  - discriminate.
Defined.

End Weights.
